(** * pyro/infer/util.py: shape reduction, MultiFrameTensor and Dice

    A shallow embedding of [src/pyro/infer/util.py].

    - Python floats and tensor elements are idealised as real numbers;
      a tensor element is a dual number (forward value, derivative with
      respect to one parameter direction), which is what gives
      [detach] a meaning.  The range of floats is kept where the code
      can observe it as an exception: [math.exp] raises
      [OverflowError] beyond the largest finite float.
    - A tensor is a shape (a [torch.Size], a list of naturals) together
      with its elements in row-major order.
    - Python exceptions are the [Raise] branch of [result].
    - [MultiFrameTensor] stores references to tensor objects, and
      [squeeze_] updates a tensor in place: its methods run over an
      explicit heap of tensors. *)

From Stdlib Require Import String.
From Stdlib Require Import List ZArith Reals Lra Lia Bool Arith.
Import ListNotations.

Set Implicit Arguments.

(** ** Python exceptions *)

Inductive exn : Type :=
| AssertionError
| AttributeError
| IndexError
| KeyError
| OverflowError
| RuntimeError
| ValueError.

Inductive result (A : Type) : Type :=
| Ok (a : A)
| Raise (e : exn).

Arguments Ok {A} a.
Arguments Raise {A} e.

Definition bind {A B : Type} (m : result A) (f : A -> result B) : result B :=
  match m with
  | Ok a => f a
  | Raise e => Raise e
  end.

Notation "x <- m ;; k" := (bind m (fun x => k))
  (at level 61, m at next level, right associativity).

(** ** Tensor elements: dual numbers over the reals *)

Record dual : Type := mkDual { val : R; tan : R }.

Definition dconst (r : R) : dual := mkDual r 0.
Definition dzero : dual := dconst 0.
Definition dadd (x y : dual) : dual := mkDual (val x + val y) (tan x + tan y).
Definition dsub (x y : dual) : dual := mkDual (val x - val y) (tan x - tan y).
Definition dmul (x y : dual) : dual :=
  mkDual (val x * val y) (tan x * val y + val x * tan y).
Definition dexp (x : dual) : dual := mkDual (exp (val x)) (exp (val x) * tan x).
Definition ddetach (x : dual) : dual := mkDual (val x) 0.

(** ** Tensors *)

Record Tensor : Type := mkTensor { shape : list nat; data : list dual }.

Definition dim (t : Tensor) : nat := length (shape t).

Definition prod (s : list nat) : nat := fold_right Nat.mul 1 s.

(** Python indexing of a sequence of length [len] by a possibly negative
    index; [None] is an [IndexError]. *)
Definition py_index (len : nat) (i : Z) : option nat :=
  let j := if (i <? 0)%Z then (i + Z.of_nat len)%Z else i in
  if ((0 <=? j) && (j <? Z.of_nat len))%Z then Some (Z.to_nat j) else None.

(** [shape[i]] on a tuple of sizes. *)
Definition tuple_get (s : list nat) (i : Z) : result nat :=
  match py_index (length s) i with
  | Some j => Ok (nth j s 0)
  | None => Raise IndexError
  end.

(** [t.size(i)] *)
Definition size (t : Tensor) (i : Z) : result nat := tuple_get (shape t) i.

(** Elements of the sum over the middle axis of a [pre * n * post] array. *)
Definition sum_axis (pre n post : nat) (d : list dual) : list dual :=
  flat_map (fun p =>
    map (fun q =>
      fold_left (fun acc j => dadd acc (nth ((p * n + j) * post + q) d dzero))
                (seq 0 n) dzero)
        (seq 0 post))
    (seq 0 pre).

(** [t.sum(d, keepdim)] *)
Definition tensor_sum_dim (t : Tensor) (d : Z) (keepdim : bool) : result Tensor :=
  match py_index (dim t) d with
  | None => Raise IndexError
  | Some i =>
      let s := shape t in
      Ok {| shape := firstn i s ++ (if keepdim then [1] else []) ++ skipn (S i) s;
            data := sum_axis (prod (firstn i s)) (nth i s 0) (prod (skipn (S i) s))
                             (data t) |}
  end.

(** [t.sum()] *)
Definition tensor_sum (t : Tensor) : Tensor :=
  {| shape := []; data := [fold_left dadd (data t) dzero] |}.

(** ** reduce_to_target and reduce_to_shape *)

(** [range(a, b)] *)
Definition range (a b : nat) : list nat := seq a (b - a).

(** [while source.dim() > n: source = source.sum(0)]; the rank drops by
    one in each round, so [dim source] rounds of fuel are enough. *)
Fixpoint sum_leading (fuel n : nat) (source : Tensor) : result Tensor :=
  match fuel with
  | O => Ok source
  | S fuel' =>
      if n <? dim source
      then s <- tensor_sum_dim source 0 false ;; sum_leading fuel' n s
      else Ok source
  end.

Definition reduce_to_target_step (target source : Tensor) (k : nat) : result Tensor :=
  a <- size source (- Z.of_nat k) ;;
  b <- size target (- Z.of_nat k) ;;
  if b <? a then tensor_sum_dim source (- Z.of_nat k) true else Ok source.

Definition reduce_to_target (source target : Tensor) : result Tensor :=
  source <- sum_leading (dim source) (dim target) source ;;
  fold_left (fun acc k => s <- acc ;; reduce_to_target_step target s k)
            (range 1 (1 + dim source)) (Ok source).

Definition reduce_to_shape_step (shape : list nat) (source : Tensor) (k : nat)
  : result Tensor :=
  a <- size source (- Z.of_nat k) ;;
  b <- tuple_get shape (- Z.of_nat k) ;;
  if b <? a then tensor_sum_dim source (- Z.of_nat k) true else Ok source.

Definition reduce_to_shape (source : Tensor) (shape : list nat) : result Tensor :=
  source <- sum_leading (dim source) (length shape) source ;;
  fold_left (fun acc k => s <- acc ;; reduce_to_shape_step shape s k)
            (range 1 (1 + dim source)) (Ok source).

(** The size of the [k]-th axis counted from the end, [1 <= k]. *)
Definition nth_end (s : list nat) (k : nat) : nat := nth (length s - k) s 0.

(** The broadcast precondition of the reducers: at every trailing
    position the target size is 1 or the source size. *)
Definition compatibleb (src tgt : list nat) : bool :=
  forallb (fun k => (nth_end tgt k =? 1) || (nth_end tgt k =? nth_end src k))
          (range 1 (1 + Nat.min (length src) (length tgt))).

(** The same, where moreover an axis that the target has at size 1 is
    not empty in the source. *)
Definition compatible_nonemptyb (src tgt : list nat) : bool :=
  forallb (fun k => ((nth_end tgt k =? 1) && (1 <=? nth_end src k))
                    || (nth_end tgt k =? nth_end src k))
          (range 1 (1 + Nat.min (length src) (length tgt))).

(** ** Broadcasting element-wise operations *)

(** The broadcast of two shapes, both read from the last axis backwards;
    [None] when two sizes differ and neither is 1. *)
Fixpoint broadcast_rev (a b : list nat) : option (list nat) :=
  match a, b with
  | [], _ => Some b
  | _, [] => Some a
  | x :: a', y :: b' =>
      match broadcast_rev a' b' with
      | None => None
      | Some r =>
          if x =? y then Some (x :: r)
          else if x =? 1 then Some (y :: r)
          else if y =? 1 then Some (x :: r)
          else None
      end
  end.

Definition broadcast_shapes (a b : list nat) : option (list nat) :=
  option_map (@rev nat) (broadcast_rev (rev a) (rev b)).

Definition pad_shape (n : nat) (s : list nat) : list nat :=
  repeat 1 (n - length s) ++ s.

(** The elements of an array of shape [from] repeated along the axes
    where [from] has size 1 and [to] has not. *)
Fixpoint expand (from to : list nat) (d : list dual) : list dual :=
  match from, to with
  | a :: from', b :: to' =>
      let inner := prod from' in
      if a =? b
      then flat_map (fun i => expand from' to' (firstn inner (skipn (i * inner) d)))
                    (seq 0 a)
      else flat_map (fun _ => expand from' to' d) (seq 0 b)
  | _, _ => d
  end.

Fixpoint map2 (f : dual -> dual -> dual) (l1 l2 : list dual) : list dual :=
  match l1, l2 with
  | x :: l1', y :: l2' => f x y :: map2 f l1' l2'
  | _, _ => []
  end.

Definition tensor_binop (f : dual -> dual -> dual) (t1 t2 : Tensor) : result Tensor :=
  match broadcast_shapes (shape t1) (shape t2) with
  | None => Raise RuntimeError
  | Some s =>
      Ok {| shape := s;
            data := map2 f (expand (pad_shape (length s) (shape t1)) s (data t1))
                           (expand (pad_shape (length s) (shape t2)) s (data t2)) |}
  end.

Definition tensor_add : Tensor -> Tensor -> result Tensor := tensor_binop dadd.
Definition tensor_sub : Tensor -> Tensor -> result Tensor := tensor_binop dsub.
Definition tensor_mul : Tensor -> Tensor -> result Tensor := tensor_binop dmul.

Definition tensor_map (f : dual -> dual) (t : Tensor) : Tensor :=
  {| shape := shape t; data := map f (data t) |}.

(** [t.detach()] and [t.exp()] *)
Definition detach (t : Tensor) : Tensor := tensor_map ddetach t.
Definition tensor_exp (t : Tensor) : Tensor := tensor_map dexp t.

(** ** Frames and ordinals *)

(** Modelled from the spec: [CondIndepStackFrame] is declared outside
    [util.py]; a frame has a name, an integer [dim] and a [vectorized]
    flag, and two frames are equal when all fields are. *)
Module Frame.
Record t : Type := mk { name : string; dim : Z; vectorized : bool }.

Definition eqb (f g : t) : bool :=
  String.eqb (name f) (name g) && Z.eqb (dim f) (dim g)
  && Bool.eqb (vectorized f) (vectorized g).
End Frame.

(** A [frozenset] of frames: a duplicate-free list, iterated in list
    order and compared as a set. *)
Definition frozenset : Type := list Frame.t.

Definition mem (f : Frame.t) (s : list Frame.t) : bool := existsb (Frame.eqb f) s.

Definition frozenset_of (l : list Frame.t) : frozenset :=
  fold_left (fun acc f => if mem f acc then acc else acc ++ [f]) l [].

(** [a <= b] on frozensets *)
Definition subsetb (a b : frozenset) : bool := forallb (fun f => mem f b) a.

Definition frozenset_eqb (a b : frozenset) : bool := subsetb a b && subsetb b a.

(** ** Python dicts (insertion-ordered) *)

Section Dict.
Variables K V : Type.
Variable keq : K -> K -> bool.

Fixpoint dict_get (d : list (K * V)) (k : K) : option V :=
  match d with
  | [] => None
  | (k', v) :: d' => if keq k' k then Some v else dict_get d' k
  end.

(** [d[k] = v]: an existing key keeps its place. *)
Fixpoint dict_set (d : list (K * V)) (k : K) (v : V) : list (K * V) :=
  match d with
  | [] => [(k, v)]
  | (k', v') :: d' =>
      if keq k' k then (k', v) :: d' else (k', v') :: dict_set d' k v
  end.
End Dict.

(** ** MultiFrameTensor *)

(** Tensor objects live in a heap; a reference is an index into it. *)
Definition addr : Type := nat.
Definition heap : Type := list Tensor.

Definition deref (h : heap) (a : addr) : Tensor := nth a h (mkTensor [] []).

Fixpoint heap_set (h : heap) (a : addr) (t : Tensor) : heap :=
  match h, a with
  | [], _ => []
  | _ :: h', O => t :: h'
  | x :: h', S a' => x :: heap_set h' a' t
  end.

(** The dict that a [MultiFrameTensor] is: frame sets to tensor objects. *)
Definition MultiFrameTensor : Type := list (frozenset * addr).

(** [f.dim < 0 and -len(value.shape) <= f.dim] *)
Definition frame_ok (rank : nat) (f : Frame.t) : bool :=
  (Frame.dim f <? 0)%Z && (- Z.of_nat rank <=? Frame.dim f)%Z.

(** One round of the loop of [add]. *)
Definition add_item (h : heap) (self : MultiFrameTensor)
           (item : list Frame.t * addr) : result (heap * MultiFrameTensor) :=
  let (cond_indep_stack, value) := item in
  let frames := frozenset_of (filter Frame.vectorized cond_indep_stack) in
  if negb (forallb (frame_ok (length (shape (deref h value)))) frames)
  then Raise AssertionError
  else
    match dict_get frozenset_eqb self frames with
    | Some a =>
        t <- tensor_add (deref h a) (deref h value) ;;
        Ok (h ++ [t], dict_set frozenset_eqb self frames (length h))
    | None => Ok (h, dict_set frozenset_eqb self frames value)
    end.

(** [self.add] of a sequence of items; an exception leaves the entries of the earlier
    items in place. *)
Fixpoint add (items : list (list Frame.t * addr)) (h : heap) (self : MultiFrameTensor)
  : result unit * (heap * MultiFrameTensor) :=
  match items with
  | [] => (Ok tt, (h, self))
  | item :: rest =>
      match add_item h self item with
      | Ok (h', self') => add rest h' self'
      | Raise e => (Raise e, (h, self))
      end
  end.

(** [MultiFrameTensor.__init__] *)
Definition MultiFrameTensor_init (items : list (list Frame.t * addr)) (h : heap)
  : result unit * (heap * MultiFrameTensor) :=
  add items h [].

(** [for f in frames: ...] of [sum_to]: [value] is rebound to a new
    tensor by each summation and is the stored object until then. *)
Fixpoint sum_to_frames (target_frames frames : list Frame.t) (h : heap) (value : addr)
  : result (heap * addr) :=
  match frames with
  | [] => Ok (h, value)
  | f :: rest =>
      if negb (mem f target_frames)
      then
        n <- size (deref h value) (Frame.dim f) ;;
        if negb (n =? 1)
        then
          t <- tensor_sum_dim (deref h value) (Frame.dim f) true ;;
          sum_to_frames target_frames rest (h ++ [t]) (length h)
        else sum_to_frames target_frames rest h value
      else sum_to_frames target_frames rest h value
  end.

(** [t.squeeze_(0)], in place *)
Definition squeeze_0 (t : Tensor) : Tensor :=
  match shape t with
  | 1 :: s => {| shape := s; data := data t |}
  | _ => t
  end.

(** [while value.shape and value.shape[0] == 1: value.squeeze_(0)];
    the rank of [value] is enough fuel. *)
Fixpoint squeeze_leading (fuel : nat) (h : heap) (value : addr) : heap :=
  match fuel with
  | O => h
  | S fuel' =>
      match shape (deref h value) with
      | [] => h
      | n :: _ =>
          if n =? 1
          then squeeze_leading fuel' (heap_set h value (squeeze_0 (deref h value))) value
          else h
      end
  end.

(** The loop of [sum_to] over [self.items()]. *)
Fixpoint sum_to_items (target_frames : list Frame.t) (its : list (frozenset * addr))
         (h : heap) (total : option addr) : result (option addr) * heap :=
  match its with
  | [] => (Ok total, h)
  | (frames, value) :: rest =>
      match sum_to_frames target_frames frames h value with
      | Raise e => (Raise e, h)
      | Ok (h1, value) =>
          let h2 := squeeze_leading (dim (deref h1 value)) h1 value in
          match total with
          | None => sum_to_items target_frames rest h2 (Some value)
          | Some tot =>
              match tensor_add (deref h2 tot) (deref h2 value) with
              | Raise e => (Raise e, h2)
              | Ok t => sum_to_items target_frames rest (h2 ++ [t]) (Some (length h2))
              end
          end
      end
  end.

(** [self.sum_to(target_frames)]: the reference returned ([None] for an
    empty accumulator) and the heap afterwards. *)
Definition sum_to (self : MultiFrameTensor) (target_frames : list Frame.t) (h : heap)
  : result (option addr) * heap :=
  sum_to_items target_frames self h None.

(** ** Dice *)

(** A Python value that the engine handles: a number or a tensor. *)
Inductive pyval : Type :=
| PyNum (r : R)
| PyTensor (t : Tensor).

(** Modelled from the spec: [is_identically_zero] lives in
    [pyro.distributions.util]; it recognises the number zero and no
    tensor, whatever the tensor holds. *)
Definition is_identically_zero (x : pyval) : bool :=
  match x with
  | PyNum r => if Req_dec_T r 0 then true else false
  | PyTensor _ => false
  end.

(** [math.log] of an integer *)
Definition math_log (n : Z) : result R :=
  if (n <=? 0)%Z then Raise ValueError else Ok (ln (IZR n)).

(** [x - x.detach()]: a number has no [detach]. *)
Definition sub_detach (x : pyval) : result pyval :=
  match x with
  | PyNum _ => Raise AttributeError
  | PyTensor t => r <- tensor_sub t (detach t) ;; Ok (PyTensor r)
  end.

(** A node of the guide trace: [site["type"]],
    [site["score_parts"].score_function], [site["infer"].get("enumerate")]
    and [site["infer"]["_enum_total"]] where present. *)
Record Site : Type := mkSite {
  site_type : string;
  score_function : pyval;
  infer_enumerate : option string;
  infer_enum_total : option Z
}.

(** Truth value of [site["infer"].get("enumerate")] *)
Definition truthy (x : option string) : bool :=
  match x with
  | None => false
  | Some s => negb (String.eqb s "")
  end.

Definition is_sequential (x : option string) : bool :=
  match x with
  | Some s => String.eqb s "sequential"
  | None => false
  end.

(** Keys of [_dice_prob_cache]: the tuple [(shape, ordinal)] that
    [get_dice_prob] looks up and the bare [ordinal] it stores under.  A
    tuple never equals a frozenset. *)
Inductive dice_key : Type :=
| KeyShapeOrdinal (shape : list nat) (ordinal : frozenset)
| KeyOrdinal (ordinal : frozenset).

Definition shape_eqb (a b : list nat) : bool :=
  if list_eq_dec Nat.eq_dec a b then true else false.

Definition dice_key_eqb (a b : dice_key) : bool :=
  match a, b with
  | KeyShapeOrdinal s o, KeyShapeOrdinal s' o' => shape_eqb s s' && frozenset_eqb o o'
  | KeyOrdinal o, KeyOrdinal o' => frozenset_eqb o o'
  | _, _ => false
  end.

Record Dice : Type := mkDice {
  log_denom : list (frozenset * R);
  log_probs : list (frozenset * list pyval);
  _log_factors_cache : list (frozenset * list pyval);
  _dice_prob_cache : list (dice_key * pyval)
}.

Definition set_log_factors_cache (self : Dice) (c : list (frozenset * list pyval)) : Dice :=
  {| log_denom := log_denom self; log_probs := log_probs self;
     _log_factors_cache := c; _dice_prob_cache := _dice_prob_cache self |}.

Definition set_dice_prob_cache (self : Dice) (c : list (dice_key * pyval)) : Dice :=
  {| log_denom := log_denom self; log_probs := log_probs self;
     _log_factors_cache := _log_factors_cache self; _dice_prob_cache := c |}.

(** [d[k]] on a [defaultdict]: the default where the key is missing. *)
Definition default_get {V : Type} (d : list (frozenset * V)) (k : frozenset) (dflt : V) : V :=
  match dict_get frozenset_eqb d k with
  | Some v => v
  | None => dflt
  end.

(** One round of the loop of [Dice.__init__] over the trace nodes. *)
Definition init_site (ordering : list (string * frozenset))
           (acc : list (frozenset * R) * list (frozenset * list pyval))
           (node : string * Site)
  : result (list (frozenset * R) * list (frozenset * list pyval)) :=
  let (log_denom, log_probs) := acc in
  let (name, site) := node in
  if negb (String.eqb (site_type site) "sample") then Ok acc
  else
    let log_prob := score_function site in
    if is_identically_zero log_prob then Ok acc
    else
      match dict_get String.eqb ordering name with
      | None => Raise KeyError
      | Some ordinal =>
          r <- (if truthy (infer_enumerate site)
                then
                  if is_sequential (infer_enumerate site)
                  then
                    match infer_enum_total site with
                    | None => Raise KeyError
                    | Some total =>
                        l <- math_log total ;;
                        Ok (dict_set frozenset_eqb log_denom ordinal
                                     (default_get log_denom ordinal 0 + l)%R,
                            log_prob)
                    end
                  else Ok (log_denom, log_prob)
                else
                  lp <- sub_detach log_prob ;;
                  Ok (log_denom, lp)) ;;
          let (log_denom, log_prob) := r in
          Ok (log_denom,
              dict_set frozenset_eqb log_probs ordinal
                       (default_get log_probs ordinal [] ++ [log_prob]))
      end.

Fixpoint init_loop (ordering : list (string * frozenset))
         (nodes : list (string * Site))
         (acc : list (frozenset * R) * list (frozenset * list pyval))
  : result (list (frozenset * R) * list (frozenset * list pyval)) :=
  match nodes with
  | [] => Ok acc
  | node :: rest => acc' <- init_site ordering acc node ;; init_loop ordering rest acc'
  end.

(** [Dice(guide_trace, ordering)]: the nodes of the trace in order and
    the ordinal of each site name. *)
Definition Dice_init (guide_trace : list (string * Site))
           (ordering : list (string * frozenset)) : result Dice :=
  acc <- init_loop ordering guide_trace ([], []) ;;
  Ok {| log_denom := fst acc; log_probs := snd acc;
        _log_factors_cache := []; _dice_prob_cache := [] |}.

Definition get_log_factors (self : Dice) (target_ordinal : frozenset)
  : list pyval * Dice :=
  match dict_get frozenset_eqb (_log_factors_cache self) target_ordinal with
  | Some cached => (cached, self)
  | None =>
      let log_denom :=
        fold_left (fun acc (it : frozenset * R) =>
                     let (ordinal, term) := it in
                     if negb (subsetb ordinal target_ordinal) then acc + term else acc)%R
                  (log_denom self) 0%R in
      let log_factors :=
        if is_identically_zero (PyNum log_denom) then [] else [PyNum (- log_denom)] in
      let log_factors :=
        fold_left (fun acc (it : frozenset * list pyval) =>
                     let (ordinal, term) := it in
                     if subsetb ordinal target_ordinal then acc ++ term else acc)
                  (log_probs self) log_factors in
      (log_factors,
       set_log_factors_cache self
         (dict_set frozenset_eqb (_log_factors_cache self) target_ordinal log_factors))
  end.

(** [a + b] on numbers and tensors *)
Definition py_add (a b : pyval) : result pyval :=
  match a, b with
  | PyNum x, PyNum y => Ok (PyNum (x + y))
  | PyNum x, PyTensor t => Ok (PyTensor (tensor_map (dadd (dconst x)) t))
  | PyTensor t, PyNum y => Ok (PyTensor (tensor_map (fun e => dadd e (dconst y)) t))
  | PyTensor t, PyTensor u => r <- tensor_add t u ;; Ok (PyTensor r)
  end.

(** The builtin [sum]: starts from the integer 0. *)
Definition py_sum (l : list pyval) : result pyval :=
  fold_left (fun acc x => a <- acc ;; py_add a x) l (Ok (PyNum 0)).

(** The largest finite float, [sys.float_info.max]. *)
Definition float_max : R := IZR ((2 ^ 53 - 1) * 2 ^ 971).

(** [math.exp(x)]: an [OverflowError] when the result is beyond the
    largest finite float. *)
Definition math_exp (r : R) : result R :=
  if Rle_dec (exp r) float_max then Ok (exp r) else Raise OverflowError.

(** [torch_exp(x)]: [x.exp()] for a tensor, [math.exp] for a number. *)
Definition torch_exp (x : pyval) : result pyval :=
  match x with
  | PyNum r => e <- math_exp r ;; Ok (PyNum e)
  | PyTensor t => Ok (PyTensor (tensor_exp t))
  end.

(** [x.exp()]: Python numbers have no such method. *)
Definition py_exp (x : pyval) : result pyval :=
  match x with
  | PyNum _ => Raise AttributeError
  | PyTensor t => Ok (PyTensor (tensor_exp t))
  end.

Definition get_dice_prob (self : Dice) (shape : list nat) (ordinal : frozenset)
  : result pyval * Dice :=
  match dict_get dice_key_eqb (_dice_prob_cache self) (KeyShapeOrdinal shape ordinal) with
  | Some cached => (Ok cached, self)
  | None =>
      let (log_factors, self) := get_log_factors self ordinal in
      match s <- py_sum log_factors ;; py_exp s with
      | Raise e => (Raise e, self)
      | Ok dice_prob =>
          (Ok dice_prob,
           set_dice_prob_cache self
             (dict_set dice_key_eqb (_dice_prob_cache self) (KeyOrdinal ordinal)
                       dice_prob))
      end
  end.

(** [a * b] with a tensor on the right *)
Definition py_mul (a : pyval) (b : Tensor) : result Tensor :=
  match a with
  | PyNum x => Ok (tensor_map (dmul (dconst x)) b)
  | PyTensor t => tensor_mul t b
  end.

Definition expectation (self : Dice) (cost : Tensor) (ordinal : frozenset)
  : result Tensor * Dice :=
  match get_dice_prob self (shape cost) ordinal with
  | (Raise e, self) => (Raise e, self)
  | (Ok dice_prob, self) =>
      (p <- py_mul dice_prob cost ;; Ok (tensor_sum p), self)
  end.

(** ** Specification-side definitions *)

(** A shape with its leading size-1 axes dropped. *)
Fixpoint strip_leading_ones (s : list nat) : list nat :=
  match s with
  | 1 :: s' => strip_leading_ones s'
  | _ => s
  end.

(** The key under which [add] files an item, and the check it asserts. *)
Definition key_of (item : list Frame.t * addr) : frozenset :=
  frozenset_of (filter Frame.vectorized (fst item)).

Definition item_ok (h : heap) (item : list Frame.t * addr) : bool :=
  forallb (frame_ok (dim (deref h (snd item)))) (key_of item).

(** The entry that the accumulator is to hold for [frames] once [items]
    are added: the element-wise sum, in order, of the entry it had (if
    any) and of the values supplied under that frame set. *)
Fixpoint accumulate (h : heap) (frames : frozenset) (acc : option Tensor)
         (items : list (list Frame.t * addr)) : result (option Tensor) :=
  match items with
  | [] => Ok acc
  | item :: rest =>
      if frozenset_eqb (key_of item) frames
      then
        match acc with
        | None => accumulate h frames (Some (deref h (snd item))) rest
        | Some t =>
            s <- tensor_add t (deref h (snd item)) ;;
            accumulate h frames (Some s) rest
        end
      else accumulate h frames acc rest
  end.

(** The entry of an accumulator for a frame set, as a tensor. *)
Definition entry (h : heap) (self : MultiFrameTensor) (frames : frozenset)
  : option Tensor :=
  option_map (deref h) (dict_get frozenset_eqb self frames).

Definition sum_R (l : list R) : R := fold_right Rplus 0%R l.

(** The sum of [log_denom[o]] over the recorded ordinals [o] that are not
    subsets of the target. *)
Definition log_denom_total (log_denom : list (frozenset * R)) (target : frozenset) : R :=
  sum_R (map snd (filter (fun it => negb (subsetb (fst it) target)) log_denom)).

(** The factor list as the specification words it. *)
Definition log_factors_spec (log_denom : list (frozenset * R))
           (log_probs : list (frozenset * list pyval)) (target : frozenset)
  : list pyval :=
  (if is_identically_zero (PyNum (log_denom_total log_denom target))
   then []
   else [PyNum (- log_denom_total log_denom target)])
  ++ concat (map snd (filter (fun it => subsetb (fst it) target) log_probs)).

(** The engines that the class can produce: built by [__init__] and then
    only touched by its own methods. *)
Inductive reachable : Dice -> Prop :=
| reach_init : forall guide_trace ordering d,
    Dice_init guide_trace ordering = Ok d -> reachable d
| reach_get_log_factors : forall d target,
    reachable d -> reachable (snd (get_log_factors d target))
| reach_get_dice_prob : forall d shape ordinal,
    reachable d -> reachable (snd (get_dice_prob d shape ordinal))
| reach_expectation : forall d cost ordinal,
    reachable d -> reachable (snd (expectation d cost ordinal)).

(** A sample site that was Monte-Carlo sampled, and one that was
    enumerated sequentially over [total] outcomes. *)
Definition sampled_site (log_prob : Tensor) : Site :=
  mkSite "sample" (PyTensor log_prob) None None.

Definition sequential_site (log_prob : Tensor) (total : Z) : Site :=
  mkSite "sample" (PyTensor log_prob) (Some "sequential"%string) (Some total).

(** The forward value of a 0-dimensional tensor. *)
Definition item_val (t : Tensor) : R := val (nth 0 (data t) dzero).
Definition item_tan (t : Tensor) : R := tan (nth 0 (data t) dzero).

(** References held by the items handed to [add], and by the entries of
    an accumulator, point into the heap. *)
Definition refs_valid (h : heap) (items : list (list Frame.t * addr)) : Prop :=
  forall item : list Frame.t * addr, In item items -> snd item < length h.

Definition entries_valid (h : heap) (self : MultiFrameTensor) : Prop :=
  forall (frames : frozenset) (a : addr), In (frames, a) self -> a < length h.

(** What the two caches of an engine hold: factor lists that
    [get_log_factors] computed for their key, and dice probabilities
    filed under bare ordinals. *)
Definition cache_ok (d : Dice) : Prop :=
  (forall o l, In (o, l) (_log_factors_cache d) ->
               l = log_factors_spec (log_denom d) (log_probs d) o)
  /\ (forall k v, In (k, v) (_dice_prob_cache d) -> exists o, k = KeyOrdinal o).

(** Frames and tensors of the examples. *)
Definition frame_A : Frame.t := Frame.mk "A" (-1) true.
Definition frame_B : Frame.t := Frame.mk "B" (-2) true.
Definition frame_F : Frame.t := Frame.mk "F" (-1) true.

Definition zeros (s : list nat) : Tensor := mkTensor s (repeat dzero (prod s)).

(** [torch.arange(n).reshape(s)] for [n] the number of elements of [s]. *)
Definition arange (s : list nat) : Tensor :=
  mkTensor s (map (fun i => dconst (INR i)) (seq 0 (prod s))).

(** ** The remaining helpers of the file *)

(** [torch_data_sum(x)]: the number itself, [x.sum().item()] for a tensor. *)
Definition torch_data_sum (x : pyval) : R :=
  match x with
  | PyNum r => r
  | PyTensor t => item_val (tensor_sum t)
  end.

(** A node of a trace as [get_iarange_stacks] reads it: [node["type"]],
    [node["cond_indep_stack"]] and the answer of [site_is_subsample].

    Modelled from the spec: [site_is_subsample] lives in
    [pyro.poutine.util]; it is the subsampling-marker predicate of a
    site, kept here as a flag of the node. *)
Record Node : Type := mkNode {
  node_type : string;
  cond_indep_stack : list Frame.t;
  site_is_subsample : bool
}.

(** [get_iarange_stacks(trace)]: the dict comprehension over
    [trace.nodes.items()]. *)
Definition get_iarange_stacks (nodes : list (string * Node))
  : list (string * list Frame.t) :=
  fold_left (fun acc (it : string * Node) =>
               let (name, node) := it in
               if String.eqb (node_type node) "sample"
                  && negb (site_is_subsample node)
               then dict_set String.eqb acc name
                             (filter Frame.vectorized (cond_indep_stack node))
               else acc)
            nodes [].

(** A tensor holds as many elements as its shape says. *)
Definition well_formed (t : Tensor) : Prop := length (data t) = prod (shape t).

(** The invariant that [add] asserts, for every entry of an accumulator. *)
Definition entries_ok (h : heap) (self : MultiFrameTensor) : Prop :=
  forall (frames : frozenset) (a : addr),
    In (frames, a) self -> forallb (frame_ok (dim (deref h a))) frames = true.

(** A site that contributes nothing to the engine: not a sample site, or
    one whose score is identically zero. *)
Definition skipped_site (site : Site) : bool :=
  negb (String.eqb (site_type site) "sample")
  || is_identically_zero (score_function site).

(** A tensor all of whose elements have the forward value [r]. *)
Definition all_val (r : R) (t : Tensor) : Prop := Forall (fun e => val e = r) (data t).

(** A site that was Monte-Carlo sampled with a well-formed tensor as its
    log-probability. *)
Definition monte_carlo_site (site : Site) : Prop :=
  site_type site = "sample"%string
  /\ truthy (infer_enumerate site) = false
  /\ exists t, score_function site = PyTensor t /\ well_formed t.

(** A source that already fits a shape: its rank is at most the length
    of the shape and no trailing size exceeds the size of the shape. *)
Definition fits_inb (src shp : list nat) : bool :=
  (length src <=? length shp)
  && forallb (fun k => nth_end src k <=? nth_end shp k) (range 1 (1 + length src)).

(** [value.shape and value.shape[0] == 1], the test of the squeeze loop. *)
Definition has_leading_one (s : list nat) : bool :=
  match s with
  | 1 :: _ => true
  | _ => false
  end.

(** A term of forward value 0: a tensor all of whose elements have it. *)
Definition zero_valued (v : pyval) : Prop :=
  exists t, v = PyTensor t /\ all_val 0 t.

(** [node["type"] == "sample" and not site_is_subsample(node)] *)
Definition has_iarange_stack (node : Node) : bool :=
  String.eqb (node_type node) "sample" && negb (site_is_subsample node).

Unset Implicit Arguments.

(** * The tensor model on small inputs *)

Example reduce_to_shape_rows : forall a b c d e f : dual,
  reduce_to_shape (mkTensor [2; 3] [a; b; c; d; e; f]) [1; 3]
  = Ok (mkTensor [1; 3] [dadd (dadd dzero a) d; dadd (dadd dzero b) e;
                         dadd (dadd dzero c) f]).
Proof. reflexivity. Qed.

Example reduce_to_shape_columns : forall a b c d e f : dual,
  reduce_to_shape (mkTensor [2; 3] [a; b; c; d; e; f]) [2; 1]
  = Ok (mkTensor [2; 1] [dadd (dadd (dadd dzero a) b) c;
                         dadd (dadd (dadd dzero d) e) f]).
Proof. reflexivity. Qed.

Example reduce_to_shape_leading : forall a b c d e f : dual,
  reduce_to_shape (mkTensor [2; 3] [a; b; c; d; e; f]) [3]
  = Ok (mkTensor [3] [dadd (dadd dzero a) d; dadd (dadd dzero b) e;
                      dadd (dadd dzero c) f]).
Proof. reflexivity. Qed.

Example tensor_add_broadcasts : forall a b c d e : dual,
  tensor_add (mkTensor [2; 1] [a; b]) (mkTensor [3] [c; d; e])
  = Ok (mkTensor [2; 3] [dadd a c; dadd a d; dadd a e;
                         dadd b c; dadd b d; dadd b e]).
Proof. reflexivity. Qed.

Example tensor_add_mismatch : forall a b c d e : dual,
  tensor_add (mkTensor [2] [a; b]) (mkTensor [3] [c; d; e]) = Raise RuntimeError.
Proof. reflexivity. Qed.

Example sum_to_keeps_fresh_result : forall a b c d e f : dual,
  sum_to [([frame_A; frame_B], 0)] [frame_A] [mkTensor [2; 3] [a; b; c; d; e; f]]
  = (Ok (Some 1),
     [mkTensor [2; 3] [a; b; c; d; e; f];
      mkTensor [3] [dadd (dadd dzero a) d; dadd (dadd dzero b) e;
                    dadd (dadd dzero c) f]]).
Proof. reflexivity. Qed.

(** * Indexing from the end *)

Lemma py_index_neg : forall len k,
  1 <= k <= len -> py_index len (- Z.of_nat k) = Some (len - k).
Proof.
  intros len k Hk. unfold py_index.
  destruct (Z.ltb_spec (- Z.of_nat k) 0) as [_|Hge]; [|lia].
  replace (- Z.of_nat k + Z.of_nat len)%Z with (Z.of_nat (len - k)) by lia.
  destruct (Z.leb_spec 0 (Z.of_nat (len - k))) as [_|Hlt]; [|lia].
  destruct (Z.ltb_spec (Z.of_nat (len - k)) (Z.of_nat len)) as [_|Hge]; [|lia].
  simpl. now rewrite Nat2Z.id.
Qed.

Lemma py_index_zero : forall len, 0 < len -> py_index len 0 = Some 0.
Proof.
  intros len Hlen. unfold py_index. simpl.
  destruct (Z.ltb_spec 0 (Z.of_nat len)) as [_|Hge]; [reflexivity|lia].
Qed.

Lemma tuple_get_neg : forall s k,
  1 <= k <= length s -> tuple_get s (- Z.of_nat k) = Ok (nth_end s k).
Proof.
  intros s k Hk. unfold tuple_get, nth_end. now rewrite py_index_neg.
Qed.

Lemma nth_set_one : forall (s : list nat) i j,
  i < length s ->
  nth j (firstn i s ++ 1 :: skipn (S i) s) 0 = if j =? i then 1 else nth j s 0.
Proof.
  induction s as [|x s IH]; intros i j Hi; simpl in Hi; [lia|].
  destruct i as [|i]; destruct j as [|j]; simpl; try reflexivity.
  apply IH. lia.
Qed.

Lemma length_set_one : forall (s : list nat) i,
  i < length s -> length (firstn i s ++ 1 :: skipn (S i) s) = length s.
Proof.
  induction s as [|x s IH]; intros i Hi; simpl in Hi; [lia|].
  destruct i as [|i]; simpl; [reflexivity|]. f_equal. apply IH. lia.
Qed.

Lemma nth_end_skipn : forall (s : list nat) m k,
  1 <= k <= length s - m -> nth_end (skipn m s) k = nth_end s k.
Proof.
  intros s m k Hk. unfold nth_end. rewrite length_skipn, nth_skipn.
  f_equal. lia.
Qed.

(** * Summation along one axis *)

Lemma tensor_sum_dim_keep : forall t k,
  1 <= k <= dim t ->
  exists r, tensor_sum_dim t (- Z.of_nat k) true = Ok r
    /\ shape r = firstn (dim t - k) (shape t) ++ 1 :: skipn (S (dim t - k)) (shape t)
    /\ dim r = dim t
    /\ forall j, 1 <= j <= dim t ->
         nth_end (shape r) j = if j =? k then 1 else nth_end (shape t) j.
Proof.
  intros t k Hk. unfold tensor_sum_dim. rewrite py_index_neg by exact Hk.
  eexists. split; [reflexivity|]. unfold dim in *. simpl.
  split; [reflexivity|]. split.
  - apply length_set_one. lia.
  - intros j Hj. unfold nth_end. rewrite length_set_one by lia.
    rewrite nth_set_one by lia.
    destruct (Nat.eqb_spec (length (shape t) - j) (length (shape t) - k));
      destruct (Nat.eqb_spec j k); try reflexivity; lia.
Qed.

(** * The two loops of the reducers *)

Lemma tensor_sum_dim_first : forall t,
  0 < dim t ->
  exists r, tensor_sum_dim t 0 false = Ok r /\ shape r = tl (shape t).
Proof.
  intros t Ht. unfold tensor_sum_dim. rewrite py_index_zero by exact Ht.
  eexists. split; [reflexivity|]. simpl. now destruct (shape t).
Qed.

Lemma sum_leading_spec : forall fuel n src,
  dim src - n <= fuel ->
  exists r, sum_leading fuel n src = Ok r
    /\ shape r = skipn (dim src - n) (shape src)
    /\ (dim src <= n -> r = src).
Proof.
  induction fuel as [|fuel IH]; intros n src Hfuel; simpl.
  - exists src. replace (dim src - n) with 0 by lia. auto.
  - destruct (Nat.ltb_spec n (dim src)) as [Hlt|Hge].
    + destruct (tensor_sum_dim_first src) as (s & Hs & Hshape); [lia|].
      rewrite Hs. simpl.
      assert (Hdim : dim s = dim src - 1).
      { unfold dim. rewrite Hshape. destruct (shape src); simpl; lia. }
      destruct (IH n s) as (r & Hr & Hshape' & _); [lia|].
      exists r. split; [exact Hr|]. split; [|lia].
      rewrite Hshape', Hdim, Hshape. unfold dim in *.
      destruct (shape src) as [|x l]; simpl length in *; [lia|].
      replace (S (length l) - n) with (S (length l - n)) by lia.
      replace (S (length l) - 1 - n) with (length l - n) by lia.
      reflexivity.
    + exists src. replace (dim src - n) with 0 by lia. auto.
Qed.

Lemma range_from_one : forall n, range 1 (1 + n) = seq 1 n.
Proof. intros n. unfold range. f_equal. lia. Qed.

Lemma trailing_fold : forall tgt src m,
  dim src <= length tgt -> m <= dim src ->
  exists r,
    fold_left (fun acc k => s <- acc ;; reduce_to_shape_step tgt s k) (seq 1 m) (Ok src)
      = Ok r
    /\ dim r = dim src
    /\ forall k, 1 <= k <= dim src ->
         nth_end (shape r) k =
           if (k <=? m) && (nth_end tgt k <? nth_end (shape src) k)
           then 1 else nth_end (shape src) k.
Proof.
  intros tgt src m Hrank. induction m as [|m IH]; intros Hm.
  - exists src. split; [reflexivity|]. split; [reflexivity|].
    intros k Hk. destruct (Nat.leb_spec k 0); [lia|reflexivity].
  - destruct IH as (r & Hr & Hdim & Hsizes); [lia|].
    rewrite seq_S, fold_left_app, Hr. simpl.
    unfold reduce_to_shape_step, size.
    rewrite !tuple_get_neg by (unfold dim in *; lia). simpl.
    rewrite (Hsizes (S m)) by lia.
    replace (S m <=? m) with false by (symmetry; apply Nat.leb_gt; lia).
    simpl andb. cbv iota.
    destruct (Nat.ltb_spec (nth_end tgt (S m)) (nth_end (shape src) (S m))) as [Hlt|Hge].
    + destruct (tensor_sum_dim_keep r (S m)) as (r' & Hr' & _ & Hdim' & Hsizes');
        [lia|].
      exists r'. split; [exact Hr'|]. split; [lia|].
      intros k Hk. rewrite Hsizes' by lia.
      destruct (Nat.eqb_spec k (S m)) as [->|Hne].
      * rewrite Nat.leb_refl. simpl.
        now replace (nth_end tgt (S m) <? nth_end (shape src) (S m)) with true
          by (symmetry; apply Nat.ltb_lt; exact Hlt).
      * rewrite Hsizes by lia.
        destruct (Nat.leb_spec k m); destruct (Nat.leb_spec k (S m));
          try reflexivity; lia.
    + exists r. split; [reflexivity|]. split; [exact Hdim|].
      intros k Hk. rewrite Hsizes by lia.
      destruct (Nat.eqb_spec k (S m)) as [->|Hne].
      * replace (S m <=? m) with false by (symmetry; apply Nat.leb_gt; lia).
        rewrite Nat.leb_refl. simpl.
        now replace (nth_end tgt (S m) <? nth_end (shape src) (S m)) with false
          by (symmetry; apply Nat.ltb_ge; exact Hge).
      * destruct (Nat.leb_spec k m); destruct (Nat.leb_spec k (S m));
          try reflexivity; lia.
Qed.

Lemma trailing_fold_noop : forall tgt src ks,
  (forall k, In k ks ->
     1 <= k <= dim src /\ k <= length tgt /\ nth_end (shape src) k <= nth_end tgt k) ->
  fold_left (fun acc k => s <- acc ;; reduce_to_shape_step tgt s k) ks (Ok src) = Ok src.
Proof.
  intros tgt src ks. induction ks as [|k ks IH]; intros Hks; [reflexivity|].
  simpl. destruct (Hks k (or_introl eq_refl)) as (Hk & Hk' & Hle).
  unfold reduce_to_shape_step at 2, size.
  rewrite !tuple_get_neg by (unfold dim in *; lia). simpl.
  replace (nth_end tgt k <? nth_end (shape src) k) with false
    by (symmetry; apply Nat.ltb_ge; exact Hle).
  apply IH. intros k' Hin. apply Hks. now right.
Qed.

Lemma reduce_to_target_as_shape : forall source target,
  reduce_to_target source target = reduce_to_shape source (shape target).
Proof. reflexivity. Qed.

Lemma reduce_to_shape_spec : forall src tgt,
  exists r, reduce_to_shape src tgt = Ok r
    /\ dim r = Nat.min (dim src) (length tgt)
    /\ forall k, 1 <= k <= dim r ->
         nth_end (shape r) k =
           if nth_end tgt k <? nth_end (shape src) k then 1 else nth_end (shape src) k.
Proof.
  intros src tgt. unfold reduce_to_shape.
  destruct (sum_leading_spec (dim src) (length tgt) src) as (s & Hs & Hshape & _);
    [lia|].
  rewrite Hs. simpl. rewrite range_from_one.
  assert (Hdim : dim s = Nat.min (dim src) (length tgt)).
  { unfold dim in *. rewrite Hshape, length_skipn. lia. }
  destruct (trailing_fold tgt s (dim s)) as (r & Hr & Hdim' & Hsizes); [lia|lia|].
  exists r. split; [exact Hr|]. split; [lia|].
  intros k Hk. rewrite Hsizes by lia.
  replace (k <=? dim s) with true by (symmetry; apply Nat.leb_le; lia).
  simpl. rewrite Hshape, nth_end_skipn by (unfold dim in *; lia). reflexivity.
Qed.

Lemma reduce_to_shape_noop : forall src tgt,
  dim src <= length tgt ->
  (forall k, 1 <= k <= dim src -> nth_end (shape src) k <= nth_end tgt k) ->
  reduce_to_shape src tgt = Ok src.
Proof.
  intros src tgt Hrank Hle. unfold reduce_to_shape.
  destruct (sum_leading_spec (dim src) (length tgt) src) as (s & Hs & _ & Hsame);
    [lia|].
  rewrite Hs, (Hsame Hrank). simpl. rewrite range_from_one.
  apply trailing_fold_noop. intros k Hin. apply in_seq in Hin.
  split; [lia|]. split; [lia|]. apply Hle. lia.
Qed.

Lemma compatibleb_spec : forall src tgt k,
  compatibleb src tgt = true ->
  1 <= k <= Nat.min (length src) (length tgt) ->
  nth_end tgt k = 1 \/ nth_end tgt k = nth_end src k.
Proof.
  intros src tgt k Hc Hk. unfold compatibleb in Hc.
  rewrite range_from_one, forallb_forall in Hc.
  specialize (Hc k). rewrite in_seq in Hc.
  destruct (orb_prop _ _ (Hc ltac:(lia))) as [H|H]; apply Nat.eqb_eq in H; auto.
Qed.

Lemma compatible_nonemptyb_spec : forall src tgt k,
  compatible_nonemptyb src tgt = true ->
  1 <= k <= Nat.min (length src) (length tgt) ->
  (nth_end tgt k = 1 /\ 1 <= nth_end src k) \/ nth_end tgt k = nth_end src k.
Proof.
  intros src tgt k Hc Hk. unfold compatible_nonemptyb in Hc.
  rewrite range_from_one, forallb_forall in Hc.
  specialize (Hc k). rewrite in_seq in Hc.
  destruct (orb_prop _ _ (Hc ltac:(lia))) as [H|H].
  - apply andb_prop in H. destruct H as [H1 H2].
    apply Nat.eqb_eq in H1. apply Nat.leb_le in H2. auto.
  - apply Nat.eqb_eq in H. auto.
Qed.

(** C9. [reduce_to_shape] is idempotent on broadcast-compatible inputs:
    when every trailing size of [shp] is 1 or the size [x] has there,
    [reduce_to_shape x shp] returns a tensor [r], and reducing [r] to
    [shp] again returns [r] itself, so that
    [reduce_to_shape (reduce_to_shape x shp) shp] equals
    [reduce_to_shape x shp]. *)
Theorem reduce_to_shape_idempotent : forall (x : Tensor) (shp : list nat),
  compatibleb (shape x) shp = true ->
  exists r,
    reduce_to_shape x shp = Ok r
    /\ reduce_to_shape r shp = Ok r
    /\ (r' <- reduce_to_shape x shp ;; reduce_to_shape r' shp) = reduce_to_shape x shp.
Proof.
  intros x shp Hc.
  destruct (reduce_to_shape_spec x shp) as (r & Hr & Hdim & Hsizes).
  assert (Hagain : reduce_to_shape r shp = Ok r);
    [|exists r; rewrite Hr; simpl; auto].
  apply reduce_to_shape_noop; [lia|].
  intros k Hk. rewrite Hsizes by exact Hk.
  destruct (Nat.ltb_spec (nth_end shp k) (nth_end (shape x) k)) as [Hlt|Hge]; [|exact Hge].
  destruct (compatibleb_spec (shape x) shp k Hc) as [H|H];
    [unfold dim in *; lia | lia | lia].
Qed.

Lemma reduce_to_shape_idempotent_witness :
  exists r,
    reduce_to_shape (zeros [2; 3]) [1; 3] = Ok r
    /\ reduce_to_shape r [1; 3] = Ok r
    /\ (r' <- reduce_to_shape (zeros [2; 3]) [1; 3] ;; reduce_to_shape r' [1; 3])
       = reduce_to_shape (zeros [2; 3]) [1; 3].
Proof. apply (reduce_to_shape_idempotent (zeros [2; 3]) [1; 3]). reflexivity. Defined.

(** C10, amended. When at every trailing position the target size
    equals the source size, or is 1 while the source axis is not empty,
    [reduce_to_target source target] and
    [reduce_to_shape source (shape target)] return the same tensor [r];
    its rank is the smaller of the two ranks, its size at every trailing
    position is the size of the target there, and reducing [r] to the
    target once more changes nothing. *)
Theorem reduce_to_target_rank_and_sizes : forall source target : Tensor,
  compatible_nonemptyb (shape source) (shape target) = true ->
  exists r,
    reduce_to_target source target = Ok r
    /\ reduce_to_shape source (shape target) = Ok r
    /\ dim r = Nat.min (dim source) (dim target)
    /\ (forall k, 1 <= k <= dim r ->
          size r (- Z.of_nat k) = size target (- Z.of_nat k))
    /\ reduce_to_target r target = Ok r.
Proof.
  intros source target Hc. rewrite reduce_to_target_as_shape.
  destruct (reduce_to_shape_spec source (shape target)) as (r & Hr & Hdim & Hsizes).
  assert (Heq : forall k, 1 <= k <= dim r -> nth_end (shape r) k = nth_end (shape target) k).
  { intros k Hk. rewrite Hsizes by exact Hk.
    destruct (compatible_nonemptyb_spec (shape source) (shape target) k Hc)
      as [[H1 H2]|H]; [unfold dim in *; lia| |].
    - rewrite H1. destruct (Nat.ltb_spec 1 (nth_end (shape source) k)); lia.
    - rewrite H, Nat.ltb_irrefl. reflexivity. }
  exists r. split; [exact Hr|]. split; [exact Hr|]. split; [exact Hdim|]. split.
  - intros k Hk. unfold size. rewrite !tuple_get_neg by (unfold dim in *; lia).
    f_equal. apply Heq, Hk.
  - rewrite reduce_to_target_as_shape. apply reduce_to_shape_noop; [unfold dim in *; lia|].
    intros k Hk. rewrite Heq by exact Hk. lia.
Qed.

Lemma reduce_to_target_rank_and_sizes_witness :
  exists r,
    reduce_to_target (zeros [2; 3]) (zeros [1; 3]) = Ok r
    /\ reduce_to_shape (zeros [2; 3]) [1; 3] = Ok r
    /\ dim r = 2
    /\ (forall k, 1 <= k <= dim r ->
          size r (- Z.of_nat k) = size (zeros [1; 3]) (- Z.of_nat k))
    /\ reduce_to_target r (zeros [1; 3]) = Ok r.
Proof.
  apply (reduce_to_target_rank_and_sizes (zeros [2; 3]) (zeros [1; 3])).
  reflexivity.
Defined.

(** C10 as stated fails on an empty axis: a source of shape [(0,)] meets
    the precondition against a target of shape [(1,)] (the target size
    is 1), the guard [0 > 1] is false, and the result keeps size 0 where
    the target has size 1. *)
Lemma reduce_to_target_empty_axis_kept :
  compatibleb (shape (zeros [0])) (shape (zeros [1])) = true
  /\ reduce_to_target (zeros [0]) (zeros [1]) = Ok (zeros [0])
  /\ reduce_to_shape (zeros [0]) (shape (zeros [1])) = Ok (zeros [0])
  /\ size (zeros [0]) (-1) <> size (zeros [1]) (-1).
Proof. repeat split. discriminate. Qed.

(** * Frames and frozensets *)

Lemma Frame_eqb_eq : forall f g, Frame.eqb f g = true <-> f = g.
Proof.
  intros [n d v] [n' d' v']. unfold Frame.eqb. simpl.
  rewrite !andb_true_iff, String.eqb_eq, Z.eqb_eq, Bool.eqb_true_iff.
  split.
  - intros [[-> ->] ->]. reflexivity.
  - intros H. inversion H. auto.
Qed.

Lemma Frame_eqb_refl : forall f, Frame.eqb f f = true.
Proof. intros f. now apply Frame_eqb_eq. Qed.

Lemma Frame_eqb_dim : forall f g, Frame.dim f <> Frame.dim g -> Frame.eqb f g = false.
Proof.
  intros f g Hne. destruct (Frame.eqb f g) eqn:E; [|reflexivity].
  apply Frame_eqb_eq in E. subst. contradiction.
Qed.

Lemma mem_In : forall f s, mem f s = true <-> In f s.
Proof.
  intros f s. unfold mem. rewrite existsb_exists. split.
  - intros (g & Hin & Heq). apply Frame_eqb_eq in Heq. now subst.
  - intros Hin. exists f. split; [exact Hin|apply Frame_eqb_refl].
Qed.

Lemma subsetb_incl : forall a b, subsetb a b = true <-> incl a b.
Proof.
  intros a b. unfold subsetb. rewrite forallb_forall. unfold incl.
  split; intros H f Hf; apply mem_In, H, Hf.
Qed.

Lemma frozenset_eqb_spec : forall a b,
  frozenset_eqb a b = true <-> incl a b /\ incl b a.
Proof.
  intros a b. unfold frozenset_eqb. now rewrite andb_true_iff, !subsetb_incl.
Qed.

Lemma frozenset_eqb_refl : forall a, frozenset_eqb a a = true.
Proof. intros a. apply frozenset_eqb_spec. split; apply incl_refl. Qed.

Lemma frozenset_eqb_sym : forall a b, frozenset_eqb a b = frozenset_eqb b a.
Proof. intros a b. unfold frozenset_eqb. apply andb_comm. Qed.

Lemma frozenset_eqb_trans : forall a b c,
  frozenset_eqb a b = true -> frozenset_eqb b c = true -> frozenset_eqb a c = true.
Proof.
  intros a b c Hab Hbc. apply frozenset_eqb_spec in Hab, Hbc. apply frozenset_eqb_spec.
  destruct Hab, Hbc. split; eapply incl_tran; eauto.
Qed.

Lemma subsetb_eqb_left : forall a b c,
  frozenset_eqb a b = true -> subsetb a c = subsetb b c.
Proof.
  intros a b c Hab. apply frozenset_eqb_spec in Hab. destruct Hab as [Hab Hba].
  destruct (subsetb a c) eqn:Ea; destruct (subsetb b c) eqn:Eb; try reflexivity.
  - apply subsetb_incl in Ea. rewrite <- Eb. symmetry. apply subsetb_incl.
    eapply incl_tran; eauto.
  - apply subsetb_incl in Eb. rewrite <- Ea. apply subsetb_incl.
    eapply incl_tran; eauto.
Qed.

Lemma subsetb_eqb_right : forall a b c,
  frozenset_eqb a b = true -> subsetb c a = subsetb c b.
Proof.
  intros a b c Hab. apply frozenset_eqb_spec in Hab. destruct Hab as [Hab Hba].
  destruct (subsetb c a) eqn:Ea; destruct (subsetb c b) eqn:Eb; try reflexivity.
  - apply subsetb_incl in Ea. rewrite <- Eb. symmetry. apply subsetb_incl.
    eapply incl_tran; eauto.
  - apply subsetb_incl in Eb. rewrite <- Ea. apply subsetb_incl.
    eapply incl_tran; eauto.
Qed.

(** * The heap *)

Lemma tensor_eta : forall t, {| shape := shape t; data := data t |} = t.
Proof. now intros []. Qed.

Lemma length_heap_set : forall h a t, length (heap_set h a t) = length h.
Proof.
  induction h as [|x h IH]; intros [|a] t; simpl; try reflexivity. now rewrite IH.
Qed.

Lemma deref_heap_set : forall h a t, a < length h -> deref (heap_set h a t) a = t.
Proof.
  unfold deref. induction h as [|x h IH]; intros [|a] t Ha; simpl in *; try lia.
  - reflexivity.
  - apply IH. lia.
Qed.

Lemma heap_set_twice : forall h a t u, heap_set (heap_set h a t) a u = heap_set h a u.
Proof.
  induction h as [|x h IH]; intros [|a] t u; simpl; try reflexivity. now rewrite IH.
Qed.

Lemma heap_set_deref : forall h a, heap_set h a (deref h a) = h.
Proof.
  unfold deref. induction h as [|x h IH]; intros [|a]; simpl; try reflexivity.
  now rewrite IH.
Qed.

Lemma heap_set_last : forall h t u, heap_set (h ++ [t]) (length h) u = h ++ [u].
Proof. induction h as [|x h IH]; intros t u; simpl; [reflexivity|]. now rewrite IH. Qed.

Lemma deref_app_old : forall h h' a, a < length h -> deref (h ++ h') a = deref h a.
Proof. intros h h' a Ha. unfold deref. now apply app_nth1. Qed.

Lemma deref_app_new : forall h t, deref (h ++ [t]) (length h) = t.
Proof. intros h t. unfold deref. rewrite app_nth2, Nat.sub_diag by lia. reflexivity. Qed.

(** * The squeeze loop of [sum_to] *)

Lemma strip_leading_ones_other : forall n s,
  n <> 1 -> strip_leading_ones (n :: s) = n :: s.
Proof. intros [|[|n]] s Hn; simpl; try reflexivity. contradiction. Qed.

Lemma squeeze_leading_spec : forall fuel h value,
  value < length h ->
  dim (deref h value) <= fuel ->
  squeeze_leading fuel h value =
    heap_set h value {| shape := strip_leading_ones (shape (deref h value));
                        data := data (deref h value) |}.
Proof.
  induction fuel as [|fuel IH]; intros h value Hv Hfuel; unfold dim in *.
  - simpl. destruct (shape (deref h value)) eqn:E; simpl in Hfuel; [|lia].
    simpl. rewrite <- E, tensor_eta. symmetry. apply heap_set_deref.
  - simpl. destruct (shape (deref h value)) as [|n s] eqn:E.
    + simpl. rewrite <- E, tensor_eta. symmetry. apply heap_set_deref.
    + destruct (Nat.eqb_spec n 1) as [->|Hn].
      * rewrite IH.
        -- rewrite deref_heap_set by exact Hv. unfold squeeze_0. rewrite E. simpl.
           apply heap_set_twice.
        -- now rewrite length_heap_set.
        -- rewrite deref_heap_set by exact Hv. unfold squeeze_0. rewrite E.
           simpl in *. lia.
      * rewrite strip_leading_ones_other by exact Hn.
        rewrite <- E, tensor_eta. symmetry. apply heap_set_deref.
Qed.

Lemma nth_end_cons : forall x (s : list nat) k,
  1 <= k <= length s -> nth_end (x :: s) k = nth_end s k.
Proof.
  intros x s k Hk. unfold nth_end. simpl length.
  replace (S (length s) - k) with (S (length s - k)) by lia. reflexivity.
Qed.

Lemma nth_end_strip : forall s k,
  1 <= k <= length s -> nth_end s k <> 1 ->
  k <= length (strip_leading_ones s)
  /\ nth_end (strip_leading_ones s) k = nth_end s k.
Proof.
  induction s as [|x s IH]; intros k Hk Hne; simpl in Hk; [lia|].
  destruct (Nat.eq_dec x 1) as [->|Hx].
  - simpl strip_leading_ones.
    destruct (Nat.eq_dec k (S (length s))) as [->|Hk'].
    + exfalso. apply Hne. unfold nth_end. simpl length. now rewrite Nat.sub_diag.
    + rewrite nth_end_cons in * by lia. apply IH; [lia|exact Hne].
  - rewrite strip_leading_ones_other by exact Hx. simpl. split; [lia|reflexivity].
Qed.

Lemma frame_ok_neg : forall rank f,
  frame_ok rank f = true ->
  exists k, 1 <= k <= rank /\ Frame.dim f = (- Z.of_nat k)%Z.
Proof.
  intros rank f H. unfold frame_ok in H. apply andb_prop in H. destruct H as [H1 H2].
  apply Z.ltb_lt in H1. apply Z.leb_le in H2.
  exists (Z.to_nat (- Frame.dim f)). split; lia.
Qed.

Lemma mem_single_same : forall f, mem f [f] = true.
Proof. intros f. simpl. now rewrite Frame_eqb_refl. Qed.

Lemma mem_single_other : forall f g, Frame.dim f <> Frame.dim g -> mem f [g] = false.
Proof. intros f g H. simpl. now rewrite Frame_eqb_dim. Qed.

Lemma sum_to_frames_skip : forall target f rest h value,
  mem f target = true ->
  sum_to_frames target (f :: rest) h value = sum_to_frames target rest h value.
Proof. intros target f rest h value Hmem. simpl. now rewrite Hmem. Qed.

Lemma sum_to_frames_sum : forall target f rest h value n s,
  mem f target = false ->
  size (deref h value) (Frame.dim f) = Ok n ->
  n <> 1 ->
  tensor_sum_dim (deref h value) (Frame.dim f) true = Ok s ->
  sum_to_frames target (f :: rest) h value
  = sum_to_frames target rest (h ++ [s]) (length h).
Proof.
  intros target f rest h value n s Hmem Hsize Hn Hs. simpl.
  rewrite Hmem, Hsize. simpl.
  destruct (Nat.eqb_spec n 1); [contradiction|]. simpl. now rewrite Hs.
Qed.

Lemma length_flat_map_const : forall (A B : Type) (F : A -> list B) (l : list A) m,
  (forall x, length (F x) = m) -> length (flat_map F l) = length l * m.
Proof.
  intros A B F l m HF. induction l as [|x l IH]; simpl; [reflexivity|].
  now rewrite length_app, HF, IH.
Qed.

Lemma length_sum_axis : forall pre n post d, length (sum_axis pre n post d) = pre * post.
Proof.
  intros pre n post d. unfold sum_axis.
  rewrite (length_flat_map_const _ _ _ _ post), length_seq; [reflexivity|].
  intros p. now rewrite length_map, length_seq.
Qed.

Lemma nth_flat_map_blocks : forall (A : Type) (F : nat -> list A) (m : nat) (dflt : A),
  (forall x, length (F x) = m) ->
  forall n a p q, p < n -> q < m ->
    nth (p * m + q) (flat_map F (seq a n)) dflt = nth q (F (a + p)) dflt.
Proof.
  intros A F m dflt HF. induction n as [|n IH]; intros a p q Hp Hq; [lia|].
  simpl. destruct p as [|p].
  - simpl. rewrite app_nth1 by (rewrite HF; lia). now rewrite Nat.add_0_r.
  - rewrite app_nth2 by (rewrite HF; lia). rewrite HF.
    replace (S p * m + q - m) with (p * m + q) by lia.
    rewrite IH by lia. do 2 f_equal. lia.
Qed.

(** The element at [(p, q)] of a sum along the middle axis is the sum of
    the elements at [(p, j, q)] of the source. *)
Lemma nth_sum_axis : forall pre n post d p q,
  p < pre -> q < post ->
  nth (p * post + q) (sum_axis pre n post d) dzero
  = fold_left (fun acc j => dadd acc (nth ((p * n + j) * post + q) d dzero))
              (seq 0 n) dzero.
Proof.
  intros pre n post d p q Hp Hq. unfold sum_axis.
  rewrite (nth_flat_map_blocks _ _ post)
    by (try (intros; now rewrite length_map, length_seq); assumption).
  simpl Nat.add.
  set (g := fun q0 => fold_left
                (fun acc j => dadd acc (nth ((p * n + j) * post + q0) d dzero))
                (seq 0 n) dzero).
  rewrite (nth_indep _ dzero (g 0)) by (now rewrite length_map, length_seq).
  rewrite map_nth, seq_nth by exact Hq. reflexivity.
Qed.

Lemma tensor_sum_dim_keep_data : forall t k r,
  1 <= k <= dim t ->
  tensor_sum_dim t (- Z.of_nat k) true = Ok r ->
  data r = sum_axis (prod (firstn (dim t - k) (shape t))) (nth_end (shape t) k)
                    (prod (skipn (S (dim t - k)) (shape t))) (data t).
Proof.
  intros t k r Hk H. unfold tensor_sum_dim in H. rewrite py_index_neg in H by exact Hk.
  inversion H. reflexivity.
Qed.

(** C7. An accumulator holds one entry, keyed by the frames [A] and [B]
    (in either iteration order), whose value has two distinct axes of
    size 3, one at [A.dim] and one at [B.dim], both within the
    accumulator invariant.  Then [sum_to] for the target [{A}] returns a
    new tensor: the value summed along the axis at [B.dim], which goes
    to size 1, with its leading size-1 axes stripped afterwards; the
    axis at [A.dim] is still there with size 3.  Element by element:
    with [i] the position of the axis of [B] counted from the front,
    [pre] the number of index tuples before it and [post] the number
    after it, the result holds [pre * post] elements, and the one at
    [(p, q)] is the sum of the three elements of the value at
    [(p, 0, q)], [(p, 1, q)] and [(p, 2, q)] (row-major), in forward
    value and in derivative. *)
Theorem sum_to_marginalizes : forall (A B : Frame.t) (frames : frozenset)
                                     (h : heap) (value : addr),
  frames = [A; B] \/ frames = [B; A] ->
  frame_ok (dim (deref h value)) A = true ->
  frame_ok (dim (deref h value)) B = true ->
  Frame.dim A <> Frame.dim B ->
  size (deref h value) (Frame.dim A) = Ok 3 ->
  size (deref h value) (Frame.dim B) = Ok 3 ->
  exists s,
    tensor_sum_dim (deref h value) (Frame.dim B) true = Ok s
    /\ size s (Frame.dim B) = Ok 1
    /\ sum_to [(frames, value)] [A] h
       = (Ok (Some (length h)),
          h ++ [{| shape := strip_leading_ones (shape s); data := data s |}])
    /\ size {| shape := strip_leading_ones (shape s); data := data s |} (Frame.dim A)
       = Ok 3
    /\ let i := Z.to_nat (Z.of_nat (dim (deref h value)) + Frame.dim B) in
       let pre := prod (firstn i (shape (deref h value))) in
       let post := prod (skipn (S i) (shape (deref h value))) in
       shape s = firstn i (shape (deref h value)) ++ 1 :: skipn (S i) (shape (deref h value))
       /\ length (data s) = pre * post
       /\ forall p q : nat, p < pre -> q < post ->
            let x j := nth ((p * 3 + j) * post + q) (data (deref h value)) dzero in
            val (nth (p * post + q) (data s) dzero)
            = (val (x 0%nat) + val (x 1%nat) + val (x 2%nat))%R
            /\ tan (nth (p * post + q) (data s) dzero)
               = (tan (x 0%nat) + tan (x 1%nat) + tan (x 2%nat))%R.
Proof.
  intros A B frames h value Hframes HokA HokB Hne HsA HsB.
  set (t := deref h value) in *.
  destruct (frame_ok_neg _ _ HokA) as (ka & Hka & HdA).
  destruct (frame_ok_neg _ _ HokB) as (kb & Hkb & HdB).
  assert (Hkne : ka <> kb) by (intros ->; apply Hne; congruence).
  destruct (tensor_sum_dim_keep t kb Hkb) as (s & Hs & Hshape & Hdim & Hsizes).
  pose proof (tensor_sum_dim_keep_data t kb s Hkb Hs) as Hdata.
  rewrite <- HdB in Hs.
  assert (HA3 : nth_end (shape t) ka = 3).
  { unfold size in HsA. rewrite HdA, tuple_get_neg in HsA by exact Hka. congruence. }
  assert (HB3 : nth_end (shape t) kb = 3).
  { unfold size in HsB. rewrite HdB, tuple_get_neg in HsB by exact Hkb. congruence. }
  exists s. split; [exact Hs|]. split; [|split; [|split]].
  - unfold size. rewrite HdB, tuple_get_neg by (unfold dim in *; lia).
    rewrite Hsizes by lia. now rewrite Nat.eqb_refl.
  - assert (Hloop : sum_to_frames [A] frames h value = Ok (h ++ [s], length h)).
    { assert (HmB : mem B [A] = false) by (apply mem_single_other; congruence).
      assert (H31 : 3 <> 1) by discriminate.
      destruct Hframes as [-> | ->].
      - rewrite sum_to_frames_skip by apply mem_single_same.
        now rewrite (sum_to_frames_sum [A] B [] h value 3 s HmB HsB H31 Hs).
      - rewrite (sum_to_frames_sum [A] B [A] h value 3 s HmB HsB H31 Hs).
        now rewrite sum_to_frames_skip by apply mem_single_same. }
    unfold sum_to. simpl. rewrite Hloop.
    rewrite squeeze_leading_spec.
    + rewrite deref_app_new, heap_set_last. reflexivity.
    + rewrite length_app. simpl. lia.
    + lia.
  - destruct (nth_end_strip (shape s) ka) as [Hlen Hnth].
    + unfold dim in *. lia.
    + rewrite Hsizes by lia.
      destruct (Nat.eqb_spec ka kb); [contradiction|]. rewrite HA3. discriminate.
    + unfold size. simpl shape. rewrite HdA, tuple_get_neg by lia.
      rewrite Hnth, Hsizes by lia.
      destruct (Nat.eqb_spec ka kb); [contradiction|]. now rewrite HA3.
  - replace (Z.to_nat (Z.of_nat (dim t) + Frame.dim B)) with (dim t - kb) by lia.
    cbv zeta. rewrite HB3 in Hdata. split; [exact Hshape|]. split.
    + rewrite Hdata. apply length_sum_axis.
    + intros p q Hp Hq. rewrite Hdata, nth_sum_axis by assumption.
      cbn [seq fold_left dadd dzero dconst val tan]. split; ring.
Qed.

Lemma sum_to_marginalizes_witness :
  exists s,
    tensor_sum_dim (arange [3; 3]) (-2) true = Ok s
    /\ size s (-2) = Ok 1
    /\ sum_to [([frame_A; frame_B], 0)] [frame_A] [arange [3; 3]]
       = (Ok (Some 1),
          [arange [3; 3]]
            ++ [{| shape := strip_leading_ones (shape s); data := data s |}])
    /\ size {| shape := strip_leading_ones (shape s); data := data s |} (-1) = Ok 3
    /\ shape s = [1; 3]
    /\ length (data s) = 1 * 3
    /\ forall p q : nat, p < 1 -> q < 3 ->
         let x j := nth ((p * 3 + j) * 3 + q) (data (arange [3; 3])) dzero in
         val (nth (p * 3 + q) (data s) dzero) = (val (x 0%nat) + val (x 1%nat) + val (x 2%nat))%R
         /\ tan (nth (p * 3 + q) (data s) dzero)
            = (tan (x 0%nat) + tan (x 1%nat) + tan (x 2%nat))%R.
Proof.
  apply (sum_to_marginalizes frame_A frame_B [frame_A; frame_B] [arange [3; 3]] 0).
  - left. reflexivity.
  - reflexivity.
  - reflexivity.
  - simpl. discriminate.
  - reflexivity.
  - reflexivity.
Defined.

(** C5, which the code breaks.  A tensor of shape [(1, 3)] is added
    under the frame [A] (dim -1).  [sum_to] for the target [{A}] sums
    nothing, so [value] is still the stored object when the loop calls
    [squeeze_]: the call returns the stored tensor itself, and the entry
    of the accumulator has shape [(3,)] afterwards. *)
Theorem sum_to_squeezes_stored_tensor :
  add [([frame_A], 0)] [zeros [1; 3]] [] = (Ok tt, ([zeros [1; 3]], [([frame_A], 0)]))
  /\ sum_to [([frame_A], 0)] [frame_A] [zeros [1; 3]]
     = (Ok (Some 0), [mkTensor [3] (data (zeros [1; 3]))])
  /\ shape (deref (snd (sum_to [([frame_A], 0)] [frame_A] [zeros [1; 3]])) 0)
     <> shape (deref [zeros [1; 3]] 0).
Proof.
  repeat split. simpl. discriminate.
Qed.

(** After that call the entry no longer has the axis its frame names:
    a frame of dim -2 stored with a value of shape [(1, 3)] passes the
    check of [add], and the second of two [sum_to] calls raises. *)
Lemma sum_to_twice_raises :
  add [([frame_B], 0)] [zeros [1; 3]] [] = (Ok tt, ([zeros [1; 3]], [([frame_B], 0)]))
  /\ fst (sum_to [([frame_B], 0)] [frame_B] [zeros [1; 3]]) = Ok (Some 0)
  /\ fst (sum_to [([frame_B], 0)] []
                 (snd (sum_to [([frame_B], 0)] [frame_B] [zeros [1; 3]])))
     = Raise IndexError.
Proof. repeat split. Qed.

(** * Dicts whose key comparison is an equivalence *)

Section DictFacts.
Variables K V : Type.
Variable keq : K -> K -> bool.
Hypothesis keq_sym : forall a b, keq a b = keq b a.
Hypothesis keq_trans : forall a b c, keq a b = true -> keq b c = true -> keq a c = true.

Lemma dict_get_set_same : forall (d : list (K * V)) k k' v,
  keq k k' = true -> dict_get keq (dict_set keq d k v) k' = Some v.
Proof.
  induction d as [|[k0 v0] d IH]; intros k k' v Hk; simpl.
  - now rewrite Hk.
  - destruct (keq k0 k) eqn:E0; simpl.
    + now rewrite (keq_trans k0 k k' E0 Hk).
    + destruct (keq k0 k') eqn:E1; [|now apply IH].
      rewrite keq_sym in Hk. rewrite (keq_trans k0 k' k E1 Hk) in E0. discriminate.
Qed.

Lemma dict_get_set_other : forall (d : list (K * V)) k k' v,
  keq k k' = false -> dict_get keq (dict_set keq d k v) k' = dict_get keq d k'.
Proof.
  induction d as [|[k0 v0] d IH]; intros k k' v Hk; simpl.
  - now rewrite Hk.
  - destruct (keq k0 k) eqn:E0; simpl.
    + destruct (keq k0 k') eqn:E1; [|reflexivity].
      rewrite keq_sym in E0. rewrite (keq_trans k k0 k' E0 E1) in Hk. discriminate.
    + destruct (keq k0 k'); [reflexivity|now apply IH].
Qed.

Lemma dict_get_keq : forall (d : list (K * V)) k k',
  keq k k' = true -> dict_get keq d k = dict_get keq d k'.
Proof.
  induction d as [|[k0 v0] d IH]; intros k k' Hk; simpl; [reflexivity|].
  destruct (keq k0 k) eqn:E0.
  - now rewrite (keq_trans k0 k k' E0 Hk).
  - destruct (keq k0 k') eqn:E1; [|now apply IH].
    rewrite keq_sym in Hk. rewrite (keq_trans k0 k' k E1 Hk) in E0. discriminate.
Qed.

Lemma in_dict_set : forall (d : list (K * V)) k v k' v',
  In (k', v') (dict_set keq d k v) -> In (k', v') d \/ v' = v.
Proof.
  induction d as [|[k0 v0] d IH]; intros k v k' v' Hin; simpl in *.
  - destruct Hin as [Heq|[]]. inversion Heq. now right.
  - destruct (keq k0 k); simpl in Hin.
    + destruct Hin as [Heq|Hin]; [inversion Heq; now right|now left; right].
    + destruct Hin as [Heq|Hin]; [now left; left|].
      destruct (IH _ _ _ _ Hin); [left; now right|now right].
Qed.

Lemma dict_get_in : forall (d : list (K * V)) k v,
  dict_get keq d k = Some v -> exists k0, In (k0, v) d /\ keq k0 k = true.
Proof.
  induction d as [|[k0 v0] d IH]; intros k v H; simpl in H; [discriminate|].
  destruct (keq k0 k) eqn:E.
  - inversion H; subst. exists k0. split; [now left|exact E].
  - destruct (IH _ _ H) as (k1 & Hin & Hk). exists k1. split; [now right|exact Hk].
Qed.
End DictFacts.

(** * add *)

Lemma tensor_add_raises : forall t u e, tensor_add t u = Raise e -> e = RuntimeError.
Proof.
  intros t u e. unfold tensor_add, tensor_binop.
  destruct (broadcast_shapes (shape t) (shape u)); [discriminate|]. congruence.
Qed.

Lemma item_ok_app : forall h h' (item : list Frame.t * addr),
  snd item < length h -> item_ok (h ++ h') item = item_ok h item.
Proof. intros h h' item Hv. unfold item_ok. now rewrite deref_app_old. Qed.

Lemma forallb_item_ok_app : forall h h' items,
  refs_valid h items ->
  forallb (item_ok (h ++ h')) items = forallb (item_ok h) items.
Proof.
  intros h h' items. induction items as [|item rest IH]; intros Hv; [reflexivity|].
  simpl. rewrite item_ok_app by (apply Hv; now left).
  rewrite IH; [reflexivity|]. intros it Hin. apply Hv. now right.
Qed.

Lemma accumulate_app : forall h h' frames items acc,
  refs_valid h items ->
  accumulate (h ++ h') frames acc items = accumulate h frames acc items.
Proof.
  intros h h' frames items. induction items as [|item rest IH]; intros acc Hv;
    [reflexivity|].
  assert (Hrest : refs_valid h rest) by (intros it Hin; apply Hv; now right).
  simpl. rewrite deref_app_old by (apply Hv; now left).
  destruct (frozenset_eqb (key_of item) frames); [|now apply IH].
  destruct acc as [t|]; [|now apply IH].
  destruct (tensor_add t (deref h (snd item))); simpl; [now apply IH|reflexivity].
Qed.

Lemma entry_keq : forall h self a b,
  frozenset_eqb a b = true -> entry h self a = entry h self b.
Proof.
  intros h self a b Hab. unfold entry. f_equal.
  apply dict_get_keq; [apply frozenset_eqb_sym|apply frozenset_eqb_trans|exact Hab].
Qed.

Lemma entry_app : forall h h' self frames,
  entries_valid h self -> entry (h ++ h') self frames = entry h self frames.
Proof.
  intros h h' self frames Hv. unfold entry.
  destruct (dict_get frozenset_eqb self frames) as [a|] eqn:E; [|reflexivity].
  simpl. f_equal. apply deref_app_old.
  destruct (dict_get_in _ _ _ _ _ _ E) as (k0 & Hin & _). eapply Hv, Hin.
Qed.

Lemma add_item_unfold : forall h self (item : list Frame.t * addr),
  add_item h self item =
    if negb (item_ok h item) then Raise AssertionError
    else
      match dict_get frozenset_eqb self (key_of item) with
      | Some a =>
          t <- tensor_add (deref h a) (deref h (snd item)) ;;
          Ok (h ++ [t], dict_set frozenset_eqb self (key_of item) (length h))
      | None => Ok (h, dict_set frozenset_eqb self (key_of item) (snd item))
      end.
Proof. intros h self [stack value]. reflexivity. Qed.

(** What one successful round of [add] does to the entries. *)
Lemma add_item_entry : forall h self (item : list Frame.t * addr) h' self',
  snd item < length h -> entries_valid h self ->
  add_item h self item = Ok (h', self') ->
  item_ok h item = true
  /\ (exists ext, h' = h ++ ext)
  /\ entries_valid h' self'
  /\ forall frames,
       accumulate h frames (entry h self frames) [item] = Ok (entry h' self' frames).
Proof.
  intros h self item h' self' Hv Hself Hadd. rewrite add_item_unfold in Hadd.
  set (key := key_of item) in *.
  destruct (item_ok h item) eqn:Eok; rewrite ?Eok in Hadd; cbn [negb] in Hadd;
    [|discriminate].
  split; [reflexivity|].
  destruct (dict_get frozenset_eqb self key) as [a|] eqn:Eget; rewrite ?Eget in Hadd.
  - destruct (tensor_add (deref h a) (deref h (snd item))) as [t|e] eqn:Et;
      rewrite ?Et in Hadd; unfold bind in Hadd; [|discriminate].
    inversion Hadd; subst h' self'; clear Hadd.
    assert (Ha : a < length h).
    { destruct (dict_get_in _ _ _ _ _ _ Eget) as (k0 & Hin & _). eapply Hself, Hin. }
    split; [now exists [t]|]. split.
    + intros frames b Hin. rewrite length_app. simpl.
      destruct (in_dict_set _ _ _ _ _ _ _ _ Hin) as [Hold| ->]; [|lia].
      specialize (Hself _ _ Hold). lia.
    + intros frames. simpl. fold key.
      destruct (frozenset_eqb key frames) eqn:Ek.
      * rewrite <- (entry_keq h self key frames Ek). unfold entry at 1.
        rewrite Eget. simpl. rewrite Et. simpl. unfold entry.
        rewrite dict_get_set_same;
          [|apply frozenset_eqb_sym|apply frozenset_eqb_trans|exact Ek].
        simpl. now rewrite deref_app_new.
      * unfold entry at 2.
        rewrite dict_get_set_other;
          [|apply frozenset_eqb_sym|apply frozenset_eqb_trans|exact Ek].
        fold (entry (h ++ [t]) self frames). now rewrite entry_app.
  - inversion Hadd; subst h' self'; clear Hadd.
    split; [exists []; now rewrite app_nil_r|]. split.
    + intros frames b Hin.
      destruct (in_dict_set _ _ _ _ _ _ _ _ Hin) as [Hold| ->]; [eapply Hself, Hold|exact Hv].
    + intros frames. simpl. fold key.
      destruct (frozenset_eqb key frames) eqn:Ek.
      * rewrite <- (entry_keq h self key frames Ek). unfold entry at 1.
        rewrite Eget. simpl. unfold entry.
        rewrite dict_get_set_same;
          [|apply frozenset_eqb_sym|apply frozenset_eqb_trans|exact Ek].
        reflexivity.
      * unfold entry at 2.
        rewrite dict_get_set_other;
          [|apply frozenset_eqb_sym|apply frozenset_eqb_trans|exact Ek].
        reflexivity.
Qed.

(** What makes one round of [add] raise. *)
Lemma add_item_raises : forall h self (item : list Frame.t * addr) e,
  add_item h self item = Raise e ->
  (e = AssertionError /\ item_ok h item = false)
  \/ (e = RuntimeError
      /\ accumulate h (key_of item) (entry h self (key_of item)) [item]
         = Raise RuntimeError).
Proof.
  intros h self item e Hadd. rewrite add_item_unfold in Hadd.
  set (key := key_of item) in *.
  destruct (item_ok h item) eqn:Eok; rewrite ?Eok in Hadd; cbn [negb] in Hadd.
  - right. destruct (dict_get frozenset_eqb self key) as [a|] eqn:Eget; rewrite ?Eget in Hadd;
      [|discriminate].
    destruct (tensor_add (deref h a) (deref h (snd item))) as [t|e'] eqn:Et;
      rewrite ?Et in Hadd; unfold bind in Hadd; [discriminate|].
    inversion Hadd; subst e'. pose proof (tensor_add_raises _ _ _ Et) as ->.
    split; [reflexivity|]. simpl. fold key. rewrite frozenset_eqb_refl.
    unfold entry. rewrite Eget. simpl. now rewrite Et.
  - left. split; [congruence|reflexivity].
Qed.

Lemma accumulate_cons : forall h frames acc item rest,
  accumulate h frames acc (item :: rest)
  = (acc' <- accumulate h frames acc [item] ;; accumulate h frames acc' rest).
Proof.
  intros h frames acc item rest. simpl.
  destruct (frozenset_eqb (key_of item) frames); [|reflexivity].
  destruct acc as [t|]; [|reflexivity].
  destruct (tensor_add t (deref h (snd item))); reflexivity.
Qed.

Lemma add_outcome : forall items h self,
  refs_valid h items -> entries_valid h self ->
  match add items h self with
  | (Ok _, (h', self')) =>
      forallb (item_ok h) items = true
      /\ forall frames,
           accumulate h frames (entry h self frames) items = Ok (entry h' self' frames)
  | (Raise e, _) =>
      (e = AssertionError /\ exists item, In item items /\ item_ok h item = false)
      \/ (e = RuntimeError
          /\ exists frames,
               accumulate h frames (entry h self frames) items = Raise RuntimeError)
  end.
Proof.
  induction items as [|item rest IH]; intros h self Hitems Hself.
  - simpl. auto.
  - assert (Hitem : snd item < length h) by (apply Hitems; now left).
    assert (Hrest : refs_valid h rest) by (intros it Hin; apply Hitems; now right).
    simpl add. destruct (add_item h self item) as [[h1 self1]|e] eqn:Eadd.
    + destruct (add_item_entry h self item h1 self1 Hitem Hself Eadd)
        as (Hok & [ext ->] & Hself1 & Hentry).
      assert (Hrest1 : refs_valid (h ++ ext) rest).
      { intros it Hin. rewrite length_app. specialize (Hrest it Hin). lia. }
      specialize (IH (h ++ ext) self1 Hrest1 Hself1).
      destruct (add rest (h ++ ext) self1) as [[[]|e] [h' self']].
      * destruct IH as [Hall Hacc]. split.
        -- simpl. rewrite Hok. now rewrite forallb_item_ok_app in Hall.
        -- intros frames. rewrite accumulate_cons, Hentry. simpl.
           rewrite <- Hacc. now rewrite accumulate_app.
      * destruct IH as [[-> (it & Hin & Hbad)]|[-> (frames & Hacc)]].
        -- left. split; [reflexivity|]. exists it. split; [now right|].
           rewrite item_ok_app in Hbad; [exact Hbad|now apply Hrest].
        -- right. split; [reflexivity|]. exists frames.
           rewrite accumulate_cons, Hentry. simpl.
           now rewrite accumulate_app in Hacc.
    + destruct (add_item_raises h self item e Eadd) as [[-> Hbad]|[-> Hacc]].
      * left. split; [reflexivity|]. exists item. split; [now left|exact Hbad].
      * right. split; [reflexivity|]. exists (key_of item).
        rewrite accumulate_cons, Hacc. reflexivity.
Qed.

(** An item that breaks the invariant makes [add] raise, whatever else
    the call holds. *)
Lemma add_violation_raises : forall items h self,
  refs_valid h items -> entries_valid h self ->
  (exists item, In item items /\ item_ok h item = false) ->
  fst (add items h self) = Raise AssertionError
  \/ fst (add items h self) = Raise RuntimeError.
Proof.
  intros items h self Hitems Hself (item & Hin & Hbad).
  pose proof (add_outcome items h self Hitems Hself) as H.
  destruct (add items h self) as [[[]|e] [h' self']]; simpl.
  - destruct H as [Hall _]. rewrite forallb_forall in Hall.
    rewrite (Hall item Hin) in Hbad. discriminate.
  - destruct H as [[-> _]|[-> _]]; auto.
Qed.

(** C8, amended.  The references of the items and of the entries point
    into the heap, and the values that meet under one frame set, the
    entry already there included, broadcast against each other (their
    element-wise sum in order, [accumulate], is defined for every frame
    set).  Then [add] raises [AssertionError] if some vectorized frame
    of some item breaks [f.dim < 0 and -len(value.shape) <= f.dim];
    otherwise it succeeds, and the entry of every frame set afterwards
    is that sum: the value itself where the frame set was new, the old
    entry plus the values where it was not. *)
Theorem add_checks_then_accumulates : forall items h self,
  (forall item : list Frame.t * addr, In item items -> snd item < length h) ->
  (forall (frames : frozenset) (a : addr), In (frames, a) self -> a < length h) ->
  (forall frames, exists r, accumulate h frames (entry h self frames) items = Ok r) ->
  if forallb (item_ok h) items
  then exists h' self',
         add items h self = (Ok tt, (h', self'))
         /\ forall frames,
              accumulate h frames (entry h self frames) items
              = Ok (entry h' self' frames)
  else fst (add items h self) = Raise AssertionError.
Proof.
  intros items h self Hitems Hself Hcompat.
  pose proof (add_outcome items h self Hitems Hself) as H.
  destruct (add items h self) as [[[]|e] [h' self']].
  - destruct H as [Hall Hacc]. rewrite Hall. now exists h', self'.
  - assert (He : e = AssertionError
                 /\ exists item, In item items /\ item_ok h item = false).
    { destruct H as [H|[_ (frames & Hacc)]]; [exact H|].
      destruct (Hcompat frames) as (r & Hr). congruence. }
    destruct He as [-> (item & Hin & Hbad)].
    replace (forallb (item_ok h) items) with false; [reflexivity|].
    symmetry. apply not_true_is_false. intros Hall.
    rewrite forallb_forall in Hall. rewrite (Hall item Hin) in Hbad. discriminate.
Qed.

Lemma add_checks_then_accumulates_witness :
  exists h' self',
    add [([frame_F], 0); ([frame_F], 1)] [zeros [4]; zeros [4]] []
    = (Ok tt, (h', self'))
    /\ forall frames,
         accumulate [zeros [4]; zeros [4]] frames
                    (entry [zeros [4]; zeros [4]] [] frames)
                    [([frame_F], 0); ([frame_F], 1)]
         = Ok (entry h' self' frames).
Proof.
  apply (add_checks_then_accumulates
           [([frame_F], 0); ([frame_F], 1)] [zeros [4]; zeros [4]] []).
  - intros item [<-|[<-|[]]]; simpl; lia.
  - intros frames a [].
  - intros frames. unfold entry. simpl.
    destruct (frozenset_eqb (key_of ([frame_F], 0)) frames);
      destruct (frozenset_eqb (key_of ([frame_F], 1)) frames);
      eexists; reflexivity.
Defined.

(** C8 as stated fails when two values filed under one frame set do not
    broadcast: both items pass the check of their frames (here they have
    none), and the addition of the second value to the entry of the
    first raises the error of the array library. *)
Lemma add_broadcast_mismatch_raises :
  forallb (item_ok [zeros [2]; zeros [3]]) [([], 0); ([], 1)] = true
  /\ fst (add [([], 0); ([], 1)] [zeros [2]; zeros [3]] []) = Raise RuntimeError.
Proof. split; reflexivity. Qed.

(** * get_log_factors against its specification *)

Lemma fold_log_denom : forall (l : list (frozenset * R)) target acc,
  fold_left (fun acc (it : frozenset * R) =>
               let (ordinal, term) := it in
               if negb (subsetb ordinal target) then acc + term else acc)%R l acc
  = (acc + log_denom_total l target)%R.
Proof.
  unfold log_denom_total.
  induction l as [|[o r] l IH]; intros target acc; simpl.
  - lra.
  - rewrite IH. destruct (negb (subsetb o target)); simpl; lra.
Qed.

Lemma fold_log_probs : forall (l : list (frozenset * list pyval)) target acc,
  fold_left (fun acc (it : frozenset * list pyval) =>
               let (ordinal, term) := it in
               if subsetb ordinal target then acc ++ term else acc) l acc
  = acc ++ concat (map snd (filter (fun it => subsetb (fst it) target) l)).
Proof.
  induction l as [|[o ts] l IH]; intros target acc; simpl.
  - now rewrite app_nil_r.
  - rewrite IH. destruct (subsetb o target); simpl; [|reflexivity].
    now rewrite app_assoc.
Qed.

Lemma get_log_factors_miss : forall d target,
  dict_get frozenset_eqb (_log_factors_cache d) target = None ->
  get_log_factors d target
  = (log_factors_spec (log_denom d) (log_probs d) target,
     set_log_factors_cache d
       (dict_set frozenset_eqb (_log_factors_cache d) target
                 (log_factors_spec (log_denom d) (log_probs d) target))).
Proof.
  intros d target Hmiss. unfold get_log_factors. rewrite Hmiss.
  rewrite fold_log_denom, fold_log_probs, Rplus_0_l. reflexivity.
Qed.

Lemma log_denom_total_keq : forall l a b,
  frozenset_eqb a b = true -> log_denom_total l a = log_denom_total l b.
Proof.
  intros l a b Hab. unfold log_denom_total. f_equal. f_equal.
  apply filter_ext. intros it. f_equal. now apply subsetb_eqb_right.
Qed.

Lemma log_factors_spec_keq : forall ld lp a b,
  frozenset_eqb a b = true -> log_factors_spec ld lp a = log_factors_spec ld lp b.
Proof.
  intros ld lp a b Hab. unfold log_factors_spec.
  rewrite (log_denom_total_keq ld a b Hab). f_equal. f_equal. f_equal.
  apply filter_ext. intros it. now apply subsetb_eqb_right.
Qed.

(** * The caches of a reachable engine *)

Lemma in_dict_set_key : forall (K V : Type) (keq : K -> K -> bool)
                               (d : list (K * V)) k v k' v',
  In (k', v') (dict_set keq d k v) ->
  In (k', v') d \/ (v' = v /\ (k' = k \/ keq k' k = true)).
Proof.
  intros K V keq. induction d as [|[k0 v0] d IH]; intros k v k' v' Hin; simpl in *.
  - destruct Hin as [Heq|[]]. inversion Heq. right. auto.
  - destruct (keq k0 k) eqn:E; simpl in Hin.
    + destruct Hin as [Heq|Hin]; [|left; now right].
      inversion Heq; subst. right. auto.
    + destruct Hin as [Heq|Hin]; [left; now left|].
      destruct (IH _ _ _ _ Hin) as [H|H]; [left; now right|now right].
Qed.

Lemma get_log_factors_fields : forall d target,
  log_denom (snd (get_log_factors d target)) = log_denom d
  /\ log_probs (snd (get_log_factors d target)) = log_probs d
  /\ _dice_prob_cache (snd (get_log_factors d target)) = _dice_prob_cache d.
Proof.
  intros d target. unfold get_log_factors.
  destruct (dict_get frozenset_eqb (_log_factors_cache d) target); simpl; auto.
Qed.

Lemma get_log_factors_cache_ok : forall d target,
  cache_ok d -> cache_ok (snd (get_log_factors d target)).
Proof.
  intros d target [Hlf Hdp].
  destruct (dict_get frozenset_eqb (_log_factors_cache d) target) as [l|] eqn:E.
  - unfold get_log_factors. rewrite E. simpl. now split.
  - rewrite get_log_factors_miss by exact E. simpl. split; [|exact Hdp].
    intros o l Hin. apply in_dict_set_key in Hin.
    destruct Hin as [Hin|[-> [->|Hk]]]; [now apply Hlf|reflexivity|].
    symmetry. now apply log_factors_spec_keq.
Qed.

Lemma get_dice_prob_state : forall d shape ordinal,
  snd (get_dice_prob d shape ordinal) = d
  \/ snd (get_dice_prob d shape ordinal) = snd (get_log_factors d ordinal)
  \/ exists p,
       snd (get_dice_prob d shape ordinal)
       = set_dice_prob_cache (snd (get_log_factors d ordinal))
           (dict_set dice_key_eqb (_dice_prob_cache (snd (get_log_factors d ordinal)))
                     (KeyOrdinal ordinal) p).
Proof.
  intros d shape ordinal. unfold get_dice_prob.
  destruct (dict_get dice_key_eqb (_dice_prob_cache d) (KeyShapeOrdinal shape ordinal));
    [now left|].
  destruct (get_log_factors d ordinal) as [lf d1]. simpl.
  destruct (s <- py_sum lf ;; py_exp s) as [p|e]; simpl; [|auto].
  right. right. now exists p.
Qed.

Lemma get_dice_prob_cache_ok : forall d shape ordinal,
  cache_ok d -> cache_ok (snd (get_dice_prob d shape ordinal)).
Proof.
  intros d shape ordinal Hd.
  pose proof (get_log_factors_cache_ok d ordinal Hd) as H1.
  destruct (get_dice_prob_state d shape ordinal) as [->|[->|[p ->]]];
    [exact Hd|exact H1|].
  destruct H1 as [Hlf Hdp]. split; [exact Hlf|]. simpl.
  intros k v Hin. apply in_dict_set_key in Hin.
  destruct Hin as [Hin|[_ [->|Hk]]]; [eapply Hdp, Hin|now exists ordinal|].
  destruct k as [s o|o]; [discriminate|now exists o].
Qed.

Lemma expectation_state : forall d cost ordinal,
  snd (expectation d cost ordinal) = snd (get_dice_prob d (shape cost) ordinal).
Proof.
  intros d cost ordinal. unfold expectation.
  destruct (get_dice_prob d (shape cost) ordinal) as [[p|e] d1]; reflexivity.
Qed.

Lemma reachable_cache_ok : forall d, reachable d -> cache_ok d.
Proof.
  induction 1 as [trace ordering d Hinit|d t _ IH|d s o _ IH|d c o _ IH].
  - unfold Dice_init in Hinit.
    destruct (init_loop ordering trace ([], [])); simpl in Hinit; [|discriminate].
    inversion Hinit. split; simpl; intros ? ? [].
  - now apply get_log_factors_cache_ok.
  - now apply get_dice_prob_cache_ok.
  - rewrite expectation_state. now apply get_dice_prob_cache_ok.
Qed.

Lemma get_log_factors_value : forall d target,
  cache_ok d ->
  fst (get_log_factors d target) = log_factors_spec (log_denom d) (log_probs d) target.
Proof.
  intros d target [Hlf _].
  destruct (dict_get frozenset_eqb (_log_factors_cache d) target) as [l|] eqn:E.
  - unfold get_log_factors. rewrite E. simpl.
    destruct (dict_get_in _ _ _ _ _ _ E) as (k0 & Hin & Hk).
    rewrite (Hlf _ _ Hin). now apply log_factors_spec_keq.
  - now rewrite get_log_factors_miss.
Qed.

(** C1.  On every engine that [Dice.__init__] built and that only its
    own methods touched since, [get_log_factors target_ordinal] returns
    the list of the specification: with [log_denom_total] the sum of
    [log_denom[o]] over the recorded ordinals [o] that are not subsets
    of the target, the list starts with [-log_denom_total] unless that
    total is identically zero, and goes on, in the insertion order of
    [log_probs], with every term list [log_probs[o]] whose ordinal is a
    subset of or equal to the target.  A cached answer is that same
    list. *)
Theorem get_log_factors_correct : forall (d : Dice) (target_ordinal : frozenset),
  reachable d ->
  fst (get_log_factors d target_ordinal)
  = log_factors_spec (log_denom d) (log_probs d) target_ordinal.
Proof.
  intros d target Hd. apply get_log_factors_value, reachable_cache_ok, Hd.
Qed.

(** * Numbers *)

Lemma is_identically_zero_num : forall r, is_identically_zero (PyNum r) = true <-> r = 0%R.
Proof.
  intros r. simpl. destruct (Req_dec_T r 0%R); split; auto; discriminate.
Qed.

Lemma is_identically_zero_0 : is_identically_zero (PyNum 0) = true.
Proof. now apply is_identically_zero_num. Qed.

Lemma is_identically_zero_nonzero : forall r, r <> 0%R -> is_identically_zero (PyNum r) = false.
Proof.
  intros r Hr. destruct (is_identically_zero (PyNum r)) eqn:E; [|reflexivity].
  apply is_identically_zero_num in E. contradiction.
Qed.

Lemma ln_3_pos : (0 < ln 3)%R.
Proof. rewrite <- ln_1. apply ln_increasing; lra. Qed.

(** * The surrogate of a sampled site *)

Lemma broadcast_rev_same : forall a, broadcast_rev a a = Some a.
Proof.
  induction a as [|x a IH]; simpl; [reflexivity|]. now rewrite IH, Nat.eqb_refl.
Qed.

Lemma broadcast_shapes_same : forall s, broadcast_shapes s s = Some s.
Proof.
  intros s. unfold broadcast_shapes. rewrite broadcast_rev_same. simpl.
  now rewrite rev_involutive.
Qed.

Lemma sub_detach_tensor : forall t,
  exists v, sub_detach (PyTensor t) = Ok (PyTensor v) /\ shape v = shape t.
Proof.
  intros t. unfold sub_detach, tensor_sub, tensor_binop, detach. simpl shape.
  rewrite broadcast_shapes_same. simpl. eexists. split; reflexivity.
Qed.

(** * Rounds of [Dice.__init__] *)

Lemma init_site_sampled : forall ordering ld lps name lp o v,
  dict_get String.eqb ordering name = Some o ->
  sub_detach (PyTensor lp) = Ok v ->
  init_site ordering (ld, lps) (name, sampled_site lp)
  = Ok (ld, dict_set frozenset_eqb lps o (default_get lps o [] ++ [v])).
Proof.
  intros ordering ld lps name lp o v Ho Hv. unfold init_site, sampled_site.
  cbn -[sub_detach]. rewrite Ho. cbn -[sub_detach]. rewrite Hv. reflexivity.
Qed.

Lemma init_site_sequential : forall ordering ld lps name lp o total,
  dict_get String.eqb ordering name = Some o ->
  (0 < total)%Z ->
  init_site ordering (ld, lps) (name, sequential_site lp total)
  = Ok (dict_set frozenset_eqb ld o ((default_get ld o 0 + ln (IZR total))%R),
        dict_set frozenset_eqb lps o (default_get lps o [] ++ [PyTensor lp])).
Proof.
  intros ordering ld lps name lp o total Ho Htotal. unfold init_site, sequential_site.
  cbn -[math_log]. rewrite Ho. unfold math_log.
  destruct (Z.leb_spec total 0) as [Hle|_]; [lia|]. reflexivity.
Qed.

(** * One sequentially enumerated site and one sampled site at one ordinal *)

Lemma get_log_factors_fresh : forall ld lps target,
  fst (get_log_factors (mkDice ld lps [] []) target) = log_factors_spec ld lps target.
Proof. intros ld lps target. now rewrite get_log_factors_miss. Qed.

Lemma sequential_scenario_factors :
  forall (nz nx : string) (lz lx : Tensor) (o : frozenset)
         (ordering : list (string * frozenset)) (trace : list (string * Site)),
  trace = [(nz, sequential_site lz 3); (nx, sampled_site lx)]
  \/ trace = [(nx, sampled_site lx); (nz, sequential_site lz 3)] ->
  dict_get String.eqb ordering nz = Some o ->
  dict_get String.eqb ordering nx = Some o ->
  exists d v terms,
    Dice_init trace ordering = Ok d
    /\ sub_detach (PyTensor lx) = Ok (PyTensor v)
    /\ (terms = [PyTensor lz; PyTensor v] \/ terms = [PyTensor v; PyTensor lz])
    /\ forall target,
         fst (get_log_factors d target)
         = if subsetb o target then terms else [PyNum (- ln 3)%R].
Proof.
  intros nz nx lz lx o ordering trace Htrace Hz Hx.
  destruct (sub_detach_tensor lx) as (v & Hv & _).
  assert (Hinit : exists terms,
            Dice_init trace ordering = Ok (mkDice [(o, (0 + ln 3)%R)] [(o, terms)] [] [])
            /\ (terms = [PyTensor lz; PyTensor v] \/ terms = [PyTensor v; PyTensor lz])).
  { destruct Htrace as [-> | ->]; unfold Dice_init, init_loop.
    - rewrite (init_site_sequential ordering [] [] nz lz o 3 Hz) by lia.
      unfold bind at 2.
      rewrite (init_site_sampled ordering _ _ nx lx o _ Hx Hv).
      simpl. rewrite frozenset_eqb_refl. unfold default_get. simpl.
      rewrite frozenset_eqb_refl. simpl. eexists. split; [reflexivity|now left].
    - rewrite (init_site_sampled ordering [] [] nx lx o _ Hx Hv).
      unfold bind at 2.
      rewrite (init_site_sequential ordering _ _ nz lz o 3 Hz) by lia.
      simpl. unfold default_get. simpl. rewrite frozenset_eqb_refl. simpl.
      eexists. split; [reflexivity|now right]. }
  destruct Hinit as (terms & Hinit & Hterms).
  eexists. exists v, terms. split; [exact Hinit|]. split; [exact Hv|].
  split; [exact Hterms|]. intros target. rewrite get_log_factors_fresh.
  unfold log_factors_spec, log_denom_total. cbn -[is_identically_zero subsetb].
  destruct (subsetb o target); cbn -[is_identically_zero].
  - rewrite is_identically_zero_0. simpl. now rewrite app_nil_r.
  - pose proof ln_3_pos as Hpos.
    rewrite is_identically_zero_nonzero by lra. simpl. do 2 f_equal. lra.
Qed.

Lemma sequential_scenario_includes :
  forall (o target : frozenset) (terms : list pyval) (lz v : Tensor),
  terms = [PyTensor lz; PyTensor v] \/ terms = [PyTensor v; PyTensor lz] ->
  In (PyNum (- ln 3)%R) (if subsetb o target then terms else [PyNum (- ln 3)%R])
  <-> subsetb o target = false.
Proof.
  intros o target terms lz v Hterms. destruct (subsetb o target).
  - split; [|discriminate]. intros Hin.
    destruct Hterms as [-> | ->]; simpl in Hin;
      destruct Hin as [H|[H|[]]]; discriminate.
  - split; [reflexivity|]. intros _. now left.
Qed.

Lemma subsetb_refl : forall a, subsetb a a = true.
Proof. intros a. apply subsetb_incl, incl_refl. Qed.

(** C3, amended.  A trace holds a site enumerated sequentially over 3
    outcomes and a Monte-Carlo sampled site, in either order, both at
    the ordinal [o].  Then [get_log_factors] includes the number
    [-log(3)] exactly for the targets of which [o] is not a subset,
    where it is the whole list; for the other targets, the shared
    ordinal itself among them, the list holds the terms of the two
    sites and no such number. *)
Theorem sequential_denominator_outside_ordinal :
  forall (nz nx : string) (lz lx : Tensor) (o : frozenset)
         (ordering : list (string * frozenset)) (trace : list (string * Site)),
  trace = [(nz, sequential_site lz 3); (nx, sampled_site lx)]
  \/ trace = [(nx, sampled_site lx); (nz, sequential_site lz 3)] ->
  dict_get String.eqb ordering nz = Some o ->
  dict_get String.eqb ordering nx = Some o ->
  exists d v,
    Dice_init trace ordering = Ok d
    /\ sub_detach (PyTensor lx) = Ok (PyTensor v)
    /\ (forall target,
          In (PyNum (- ln 3)%R) (fst (get_log_factors d target))
          <-> subsetb o target = false)
    /\ (forall target,
          subsetb o target = false ->
          fst (get_log_factors d target) = [PyNum (- ln 3)%R])
    /\ (forall target,
          subsetb o target = true ->
          fst (get_log_factors d target) = [PyTensor lz; PyTensor v]
          \/ fst (get_log_factors d target) = [PyTensor v; PyTensor lz])
    /\ ~ In (PyNum (- ln 3)%R) (fst (get_log_factors d o)).
Proof.
  intros nz nx lz lx o ordering trace Htrace Hz Hx.
  destruct (sequential_scenario_factors nz nx lz lx o ordering trace Htrace Hz Hx)
    as (d & v & terms & Hinit & Hv & Hterms & Hfactors).
  exists d, v. split; [exact Hinit|]. split; [exact Hv|].
  assert (Hiff : forall target,
            In (PyNum (- ln 3)%R) (fst (get_log_factors d target))
            <-> subsetb o target = false).
  { intros target. rewrite Hfactors.
    now apply (sequential_scenario_includes o target terms lz v). }
  split; [exact Hiff|]. split; [|split].
  - intros target Hout. now rewrite Hfactors, Hout.
  - intros target Hin. rewrite Hfactors, Hin.
    destruct Hterms as [-> | ->]; auto.
  - intros Hin. apply Hiff in Hin. rewrite subsetb_refl in Hin. discriminate.
Qed.

Lemma sequential_denominator_outside_ordinal_witness :
  exists d v,
    Dice_init [("z"%string, sequential_site (zeros [4]) 3);
               ("x"%string, sampled_site (zeros [4]))]
              [("z"%string, [frame_F]); ("x"%string, [frame_F])] = Ok d
    /\ sub_detach (PyTensor (zeros [4])) = Ok (PyTensor v)
    /\ (forall target,
          In (PyNum (- ln 3)%R) (fst (get_log_factors d target))
          <-> subsetb [frame_F] target = false)
    /\ (forall target,
          subsetb [frame_F] target = false ->
          fst (get_log_factors d target) = [PyNum (- ln 3)%R])
    /\ (forall target,
          subsetb [frame_F] target = true ->
          fst (get_log_factors d target) = [PyTensor (zeros [4]); PyTensor v]
          \/ fst (get_log_factors d target) = [PyTensor v; PyTensor (zeros [4])])
    /\ ~ In (PyNum (- ln 3)%R) (fst (get_log_factors d [frame_F])).
Proof.
  apply (sequential_denominator_outside_ordinal "z" "x" (zeros [4]) (zeros [4]) [frame_F]).
  - left. reflexivity.
  - reflexivity.
  - reflexivity.
Defined.

(** C3 as stated fails: queried at the shared ordinal, the engine skips
    [log_denom] of that ordinal ([ordinal <= target_ordinal] holds) and
    the list has no [-log(3)] term. *)
Lemma sequential_denominator_absent_at_shared_ordinal :
  exists d,
    Dice_init [("z"%string, sequential_site (mkTensor [] [dzero]) 3);
               ("x"%string, sampled_site (mkTensor [] [dzero]))]
              [("z"%string, []); ("x"%string, [])] = Ok d
    /\ ~ In (PyNum (- ln 3)%R) (fst (get_log_factors d [])).
Proof.
  destruct (sequential_scenario_factors "z" "x" (mkTensor [] [dzero]) (mkTensor [] [dzero])
              [] [("z"%string, []); ("x"%string, [])]
              [("z"%string, sequential_site (mkTensor [] [dzero]) 3);
               ("x"%string, sampled_site (mkTensor [] [dzero]))])
    as (d & v & terms & Hinit & _ & Hterms & Hfactors);
    [now left|reflexivity|reflexivity|].
  exists d. split; [exact Hinit|]. rewrite Hfactors. simpl.
  intros Hin. destruct Hterms as [-> | ->]; simpl in Hin;
    destruct Hin as [H|[H|[]]]; discriminate.
Qed.

(** * Ordinals that were never recorded *)

Lemma log_denom_total_app : forall l l' target,
  log_denom_total (l ++ l') target
  = (log_denom_total l target + log_denom_total l' target)%R.
Proof.
  intros l l' target. unfold log_denom_total. rewrite filter_app, map_app.
  induction (map snd (filter (fun it => negb (subsetb (fst it) target)) l)) as [|x xs IH];
    simpl; [lra|]. rewrite IH. lra.
Qed.

Lemma log_factors_spec_neutral : forall ld lps o,
  log_factors_spec (ld ++ [(o, 0%R)]) (lps ++ [(o, [])]) o = log_factors_spec ld lps o.
Proof.
  intros ld lps o. unfold log_factors_spec.
  rewrite log_denom_total_app, filter_app, map_app, concat_app.
  replace (log_denom_total [(o, 0%R)] o) with 0%R.
  - rewrite Rplus_0_r. f_equal. cbn -[subsetb].
    destruct (subsetb o o); simpl; now rewrite app_nil_r.
  - unfold log_denom_total. cbn -[subsetb]. destruct (subsetb o o); simpl; lra.
Qed.

Lemma concat_filter_nil : forall (lps : list (frozenset * list pyval)) target,
  concat (map snd (filter (fun it => subsetb (fst it) target) lps)) = []
  <-> forall o ts, In (o, ts) lps -> subsetb o target = true -> ts = [].
Proof.
  intros lps target. induction lps as [|[o ts] lps IH]; simpl.
  - split; [intros _ ? ? []|reflexivity].
  - destruct (subsetb o target) eqn:E; simpl.
    + split.
      * intros H. apply app_eq_nil in H. destruct H as [-> H].
        intros o' ts' [Heq|Hin] Ho'; [now inversion Heq|].
        now apply (proj1 IH H o' ts').
      * intros H. rewrite (H o ts (or_introl eq_refl) E). simpl.
        apply IH. intros o' ts' Hin. apply H. now right.
    + rewrite IH. split.
      * intros H o' ts' [Heq|Hin] Ho'; [inversion Heq; subst; congruence|].
        now apply (H o' ts').
      * intros H o' ts' Hin. apply H. now right.
Qed.

Lemma log_factors_spec_nil : forall ld lps target,
  log_factors_spec ld lps target = []
  <-> log_denom_total ld target = 0%R
      /\ forall o ts, In (o, ts) lps -> subsetb o target = true -> ts = [].
Proof.
  intros ld lps target. unfold log_factors_spec.
  rewrite <- concat_filter_nil, <- is_identically_zero_num.
  destruct (is_identically_zero (PyNum (log_denom_total ld target))); simpl.
  - tauto.
  - split; [discriminate|]. intros [H _]. discriminate.
Qed.

Lemma dict_get_none : forall (K V : Type) (keq : K -> K -> bool) (d : list (K * V)) k,
  dict_get keq d k = None -> forall k' v, In (k', v) d -> keq k' k = false.
Proof.
  intros K V keq. induction d as [|[k0 v0] d IH]; intros k Hnone k' v Hin; simpl in *.
  - contradiction.
  - destruct (keq k0 k) eqn:E; [discriminate|].
    destruct Hin as [Heq|Hin]; [inversion Heq; now subst|]. eapply IH; eauto.
Qed.

Lemma in_concat_filter : forall (lps : list (frozenset * list pyval)) target v,
  In v (concat (map snd (filter (fun it => subsetb (fst it) target) lps))) ->
  exists o ts, In (o, ts) lps /\ In v ts /\ subsetb o target = true.
Proof.
  intros lps target v. induction lps as [|[o ts] lps IH]; simpl; [contradiction|].
  destruct (subsetb o target) eqn:E; simpl.
  - rewrite in_app_iff. intros [Hin|Hin].
    + exists o, ts. auto.
    + destruct (IH Hin) as (o' & ts' & H1 & H2 & H3). exists o', ts'. auto.
  - intros Hin. destruct (IH Hin) as (o' & ts' & H1 & H2 & H3). exists o', ts'. auto.
Qed.

(** C6, amended.  [get_log_factors] is total, and at an ordinal that no
    site recorded the missing ordinal counts as a zero and empty
    contribution: the list is the one obtained with [(ordinal, 0.0)] and
    [(ordinal, [])] recorded, each of its terms is the negated
    [log_denom] total of the ordinals outside the target or a term of a
    recorded strict subset of it, and it is empty exactly when that
    total is zero and no recorded subset has terms. *)
Theorem get_log_factors_missing_ordinal : forall (d : Dice) (ordinal : frozenset),
  reachable d ->
  dict_get frozenset_eqb (log_probs d) ordinal = None ->
  fst (get_log_factors d ordinal)
  = log_factors_spec (log_denom d ++ [(ordinal, 0%R)]) (log_probs d ++ [(ordinal, [])])
                     ordinal
  /\ (forall v, In v (fst (get_log_factors d ordinal)) ->
        v = PyNum (- log_denom_total (log_denom d) ordinal)%R
        \/ exists o ts,
             In (o, ts) (log_probs d) /\ In v ts
             /\ subsetb o ordinal = true /\ subsetb ordinal o = false)
  /\ (fst (get_log_factors d ordinal) = []
      <-> log_denom_total (log_denom d) ordinal = 0%R
          /\ forall o ts, In (o, ts) (log_probs d) -> subsetb o ordinal = true -> ts = []).
Proof.
  intros d ordinal Hd Hmissing.
  rewrite (get_log_factors_value d ordinal (reachable_cache_ok d Hd)).
  split; [symmetry; apply log_factors_spec_neutral|].
  split; [|apply log_factors_spec_nil].
  intros v Hin. unfold log_factors_spec in Hin. apply in_app_iff in Hin.
  destruct Hin as [Hin|Hin].
  - left. destruct (is_identically_zero _); simpl in Hin; [contradiction|].
    destruct Hin as [<-|[]]. reflexivity.
  - right. destruct (in_concat_filter _ _ _ Hin) as (o & ts & Hlps & Hts & Hsub).
    exists o, ts. repeat split; try assumption.
    pose proof (dict_get_none _ _ _ _ _ Hmissing o ts Hlps) as Hneq.
    unfold frozenset_eqb in Hneq. rewrite Hsub in Hneq. exact Hneq.
Qed.

(** * get_dice_prob never finds its cache entry *)

Lemma dice_prob_cache_miss : forall d shape ordinal,
  cache_ok d ->
  dict_get dice_key_eqb (_dice_prob_cache d) (KeyShapeOrdinal shape ordinal) = None.
Proof.
  intros d shape ordinal [_ Hkeys].
  induction (_dice_prob_cache d) as [|[k v] c IH]; simpl; [reflexivity|].
  destruct (Hkeys k v (or_introl eq_refl)) as [o ->]. simpl.
  apply IH. intros k' v' Hin. apply (Hkeys k' v'). now right.
Qed.

Lemma get_dice_prob_value : forall d shape ordinal,
  cache_ok d ->
  fst (get_dice_prob d shape ordinal)
  = (s <- py_sum (log_factors_spec (log_denom d) (log_probs d) ordinal) ;; py_exp s).
Proof.
  intros d shape ordinal Hd. unfold get_dice_prob.
  rewrite dice_prob_cache_miss by exact Hd.
  rewrite <- (get_log_factors_value d ordinal Hd).
  destruct (get_log_factors d ordinal) as [lf d1]. simpl.
  destruct (s <- py_sum lf ;; py_exp s); reflexivity.
Qed.

Lemma expectation_value : forall d cost ordinal,
  cache_ok d ->
  fst (expectation d cost ordinal)
  = (dice_prob <- (s <- py_sum (log_factors_spec (log_denom d) (log_probs d) ordinal) ;;
                   py_exp s) ;;
     p <- py_mul dice_prob cost ;; Ok (tensor_sum p)).
Proof.
  intros d cost ordinal Hd. unfold expectation.
  rewrite <- (get_dice_prob_value d (shape cost) ordinal Hd).
  destruct (get_dice_prob d (shape cost) ordinal) as [[p|e] d1]; reflexivity.
Qed.

(** * The range of math.exp *)

Lemma exp_INR_mul : forall (n : nat) (x : R), exp (INR n * x) = (exp x ^ n)%R.
Proof.
  intros n x. induction n as [|n IH].
  - simpl. rewrite Rmult_0_l. apply exp_0.
  - rewrite S_INR, Rmult_plus_distr_r, Rmult_1_l, exp_plus, IH. simpl. ring.
Qed.

Lemma exp_monotone : forall x y : R, (x <= y)%R -> (exp x <= exp y)%R.
Proof.
  intros x y [H| ->]; [left; now apply exp_increasing|right; reflexivity].
Qed.

(** [e <= 3], so [exp 600 <= 3 ^ 600], which is below [float_max]. *)
Lemma exp_600_le_float_max : (exp 600 <= float_max)%R.
Proof.
  replace 600%R with (INR 600 * 1)%R
    by (rewrite INR_IZR_INZ; change (Z.of_nat 600) with 600%Z; lra).
  rewrite exp_INR_mul.
  apply Rle_trans with (3 ^ 600)%R.
  - apply pow_incr. split; [left; apply exp_pos|apply exp_le_3].
  - rewrite pow_IZR. unfold float_max. apply IZR_le.
    apply Z.leb_le. vm_compute. reflexivity.
Qed.


Lemma math_exp_returns : forall r : R, (r <= 600)%R -> math_exp r = Ok (exp r).
Proof.
  intros r Hr. unfold math_exp.
  destruct (Rle_dec (exp r) float_max) as [_|Hn]; [reflexivity|].
  exfalso. apply Hn.
  apply Rle_trans with (exp 600); [now apply exp_monotone|apply exp_600_le_float_max].
Qed.


(** The helper of the same file does accept the sum of no factors. *)
Lemma torch_exp_of_empty_sum :
  (s <- py_sum [] ;; torch_exp s) = Ok (PyNum 1).
Proof.
  cbn [py_sum fold_left bind torch_exp]. rewrite math_exp_returns by lra.
  cbn [bind]. now rewrite exp_0.
Qed.

(** The engine of an empty trace: the factor list is empty and its sum
    is the integer 0, which has no [exp]. *)
Lemma get_dice_prob_without_factors_raises : forall shape ordinal,
  Dice_init [] [] = Ok (mkDice [] [] [] [])
  /\ fst (get_log_factors (mkDice [] [] [] []) ordinal) = []
  /\ fst (get_dice_prob (mkDice [] [] [] []) shape ordinal) = Raise AttributeError.
Proof.
  intros shape ordinal. split; [reflexivity|].
  assert (Hspec : log_factors_spec [] [] ordinal = []).
  { unfold log_factors_spec, log_denom_total. cbn -[is_identically_zero].
    now rewrite is_identically_zero_0. }
  split.
  - now rewrite get_log_factors_fresh.
  - rewrite get_dice_prob_value by (split; intros ? ? []). simpl log_denom.
    simpl log_probs. now rewrite Hspec.
Qed.

Lemma cache_ok_fresh : forall ld lps, cache_ok (mkDice ld lps [] []).
Proof. intros ld lps. split; intros ? ? []. Qed.

Lemma exp_surrogate : forall x y : R, exp (R0 + (x - x) + (y - y)) = 1%R.
Proof.
  intros x y. replace (R0 + (x - x) + (y - y))%R with 0%R by (unfold IZR; lra).
  apply exp_0.
Qed.

Lemma exp_surrogate' : forall x y : R, exp (R0 + (y - y) + (x - x)) = 1%R.
Proof.
  intros x y. replace (R0 + (y - y) + (x - x))%R with 0%R by (unfold IZR; lra).
  apply exp_0.
Qed.

Ltac eval_tensors := cbv -[dadd dsub dmul dexp ddetach dconst dzero].

Ltac eval_factors F :=
  unfold log_factors_spec, log_denom_total;
  cbn -[subsetb is_identically_zero dadd dsub dmul dexp ddetach dconst dzero];
  rewrite is_identically_zero_0, subsetb_refl;
  change (subsetb [] [F]) with true;
  eval_tensors.

Ltac unfold_dual :=
  unfold dadd, dsub, dmul, dexp, ddetach, dzero, dconst; cbn [val tan].

(** C2.  The trace holds two sampled sites, [x] at the ordinal [{}] with
    a scalar log-probability and [y] at the ordinal [{F}] with a
    log-probability of shape [(4,)], in either order; the cost has shape
    [(4,)].  Every term recorded for the two sites is a tensor of
    forward value 0, the dice weight at [{F}] has forward value 1, and
    [expectation cost {F}] returns a 0-dimensional tensor whose forward
    value is that of [cost.sum()], the sum of the four costs; its
    derivative is each cost weighted by the derivatives of the
    log-probabilities of [x] and of [y], plus the derivative of the
    costs themselves. *)
Theorem expectation_forward_value :
  forall (F : Frame.t) (a b1 b2 b3 b4 c1 c2 c3 c4 : dual) (x_first : bool),
  let site_x := ("x"%string, sampled_site (mkTensor [] [a])) in
  let site_y := ("y"%string, sampled_site (mkTensor [4] [b1; b2; b3; b4])) in
  let cost := mkTensor [4] [c1; c2; c3; c4] in
  exists d r,
    Dice_init (if x_first then [site_x; site_y] else [site_y; site_x])
              [("x"%string, []); ("y"%string, [F])] = Ok d
    /\ (forall v, In v (fst (get_log_factors d [F])) ->
          exists t, v = PyTensor t /\ Forall (fun e => val e = 0%R) (data t))
    /\ (exists p, fst (get_dice_prob d (shape cost) [F]) = Ok (PyTensor p)
                  /\ Forall (fun e => val e = 1%R) (data p))
    /\ fst (expectation d cost [F]) = Ok r
    /\ shape r = []
    /\ item_val r = item_val (tensor_sum cost)
    /\ item_val r = (val c1 + val c2 + val c3 + val c4)%R
    /\ item_tan r
       = ((tan a + tan b1) * val c1 + (tan a + tan b2) * val c2
          + (tan a + tan b3) * val c3 + (tan a + tan b4) * val c4
          + (tan c1 + tan c2 + tan c3 + tan c4))%R.
Proof.
  intros F a b1 b2 b3 b4 c1 c2 c3 c4 x_first site_x site_y cost.
  destruct x_first.
  - eexists. eexists. split; [eval_tensors; reflexivity|].
    split; [|split; [|split; [|split]]].
    + rewrite get_log_factors_fresh. eval_factors F.
      intros v [<-|[<-|[]]]; eexists; (split; [reflexivity|]);
        repeat constructor; unfold_dual; ring.
    + rewrite get_dice_prob_value by apply cache_ok_fresh.
      cbn [log_denom log_probs]. eval_factors F.
      eexists. split; [reflexivity|].
      repeat constructor; unfold_dual; apply exp_surrogate.
    + rewrite expectation_value by apply cache_ok_fresh.
      cbn [log_denom log_probs]. eval_factors F. reflexivity.
    + reflexivity.
    + unfold item_val, item_tan, tensor_sum, cost. cbn [data nth fold_left].
      unfold_dual. rewrite !exp_surrogate. repeat split; ring.
  - eexists. eexists. split; [eval_tensors; reflexivity|].
    split; [|split; [|split; [|split]]].
    + rewrite get_log_factors_fresh. eval_factors F.
      intros v [<-|[<-|[]]]; eexists; (split; [reflexivity|]);
        repeat constructor; unfold_dual; ring.
    + rewrite get_dice_prob_value by apply cache_ok_fresh.
      cbn [log_denom log_probs]. eval_factors F.
      eexists. split; [reflexivity|].
      repeat constructor; unfold_dual; apply exp_surrogate'.
    + rewrite expectation_value by apply cache_ok_fresh.
      cbn [log_denom log_probs]. eval_factors F. reflexivity.
    + reflexivity.
    + unfold item_val, item_tan, tensor_sum, cost. cbn [data nth fold_left].
      unfold_dual. rewrite !exp_surrogate'. repeat split; ring.
Qed.

(** C6 as stated fails: with a sampled site at the ordinal [{}], the
    ordinal [{F}] has no recorded contribution, and [get_log_factors]
    returns there the term of the site upstream, not the empty list. *)
Lemma get_log_factors_nonempty_at_missing_ordinal :
  exists d,
    Dice_init [("x"%string, sampled_site (mkTensor [] [dzero]))] [("x"%string, [])] = Ok d
    /\ dict_get frozenset_eqb (log_denom d) [frame_F] = None
    /\ dict_get frozenset_eqb (log_probs d) [frame_F] = None
    /\ fst (get_log_factors d [frame_F]) <> [].
Proof.
  eexists. split; [eval_tensors; reflexivity|].
  split; [reflexivity|]. split; [reflexivity|].
  rewrite get_log_factors_fresh. unfold log_factors_spec, log_denom_total.
  cbn -[is_identically_zero dadd dsub dmul dexp ddetach dconst dzero].
  rewrite is_identically_zero_0. discriminate.
Qed.

Lemma get_log_factors_missing_ordinal_witness :
  exists d,
    Dice_init [("x"%string, sampled_site (mkTensor [] [dzero]))] [("x"%string, [])] = Ok d
    /\ fst (get_log_factors d [frame_F])
       = log_factors_spec (log_denom d ++ [([frame_F], 0%R)])
                          (log_probs d ++ [([frame_F], [])]) [frame_F]
    /\ (forall v, In v (fst (get_log_factors d [frame_F])) ->
        v = PyNum (- log_denom_total (log_denom d) [frame_F])%R
        \/ exists o ts,
             In (o, ts) (log_probs d) /\ In v ts
             /\ subsetb o [frame_F] = true /\ subsetb [frame_F] o = false)
    /\ (fst (get_log_factors d [frame_F]) = []
        <-> log_denom_total (log_denom d) [frame_F] = 0%R
            /\ forall o ts, In (o, ts) (log_probs d) ->
                            subsetb o [frame_F] = true -> ts = []).
Proof.
  eexists. split; [eval_tensors; reflexivity|].
  apply get_log_factors_missing_ordinal.
  - eapply (reach_init [("x"%string, sampled_site (mkTensor [] [dzero]))]
                       [("x"%string, [])]).
    eval_tensors. reflexivity.
  - reflexivity.
Defined.

(** C4, which the code breaks.  [get_dice_prob] looks its cache up under
    the tuple [(shape, ordinal)] and files its result under [ordinal]
    alone: after a call with shape [(4,)] at the ordinal [{}] the cache
    has no entry for [((4,), {})], the value sits under [{}], and the
    same call again misses the cache and computes the same value. *)
Theorem get_dice_prob_stores_under_other_key :
  exists d p d1,
    Dice_init [("x"%string, sampled_site (mkTensor [] [dzero]))] [("x"%string, [])] = Ok d
    /\ get_dice_prob d [4] [] = (Ok p, d1)
    /\ dict_get dice_key_eqb (_dice_prob_cache d1) (KeyShapeOrdinal [4] []) = None
    /\ dict_get dice_key_eqb (_dice_prob_cache d1) (KeyOrdinal []) = Some p
    /\ get_dice_prob d1 [4] [] = (Ok p, d1).
Proof.
  eexists. eexists. eexists. split; [eval_tensors; reflexivity|].
  split.
  - unfold get_dice_prob. cbn [dict_get _dice_prob_cache].
    rewrite get_log_factors_miss by reflexivity.
    unfold log_factors_spec, log_denom_total.
    cbn -[is_identically_zero dadd dsub dmul dexp ddetach dconst dzero].
    rewrite is_identically_zero_0. eval_tensors. reflexivity.
  - split; [reflexivity|]. split; [reflexivity|]. eval_tensors. reflexivity.
Qed.

Lemma get_log_factors_correct_witness :
  exists d,
    Dice_init [("z"%string, sequential_site (mkTensor [] [dzero]) 3);
               ("x"%string, sampled_site (mkTensor [] [dzero]))]
              [("z"%string, [frame_F]); ("x"%string, [])] = Ok d
    /\ fst (get_log_factors d [])
       = log_factors_spec (log_denom d) (log_probs d) [].
Proof.
  eexists. split.
  - unfold Dice_init, init_loop.
    rewrite (init_site_sequential _ [] [] "z" (mkTensor [] [dzero]) [frame_F] 3)
      by (reflexivity || lia).
    unfold bind at 2.
    rewrite (init_site_sampled _ _ _ "x" (mkTensor [] [dzero]) []
               (PyTensor (mkTensor [] [dsub dzero (ddetach dzero)])))
      by reflexivity.
    reflexivity.
  - apply get_log_factors_correct.
    eapply (reach_init [("z"%string, sequential_site (mkTensor [] [dzero]) 3);
                        ("x"%string, sampled_site (mkTensor [] [dzero]))]
                       [("z"%string, [frame_F]); ("x"%string, [])]).
    unfold Dice_init, init_loop.
    rewrite (init_site_sequential _ [] [] "z" (mkTensor [] [dzero]) [frame_F] 3)
      by (reflexivity || lia).
    unfold bind at 2.
    rewrite (init_site_sampled _ _ _ "x" (mkTensor [] [dzero]) []
               (PyTensor (mkTensor [] [dsub dzero (ddetach dzero)])))
      by reflexivity.
    reflexivity.
Defined.

(** * The reducers on arbitrary inputs *)

Lemma py_index_lt : forall len i j, py_index len i = Some j -> j < len.
Proof.
  intros len i j. unfold py_index.
  destruct (Z.ltb_spec i 0);
    match goal with |- context [(?a <=? ?b)%Z && (?c <? ?d)%Z] =>
      destruct (Z.leb_spec a b); destruct (Z.ltb_spec c d) end;
    simpl; intros Heq; inversion Heq; lia.
Qed.

Lemma fold_result_preserves : forall (P : Tensor -> Prop) (step : Tensor -> nat -> result Tensor),
  (forall t k r, P t -> step t k = Ok r -> P r) ->
  forall ks t r,
    P t -> fold_left (fun acc k => s <- acc ;; step s k) ks (Ok t) = Ok r -> P r.
Proof.
  intros P step Hstep. induction ks as [|k ks IH]; intros t r Ht Hfold; simpl in Hfold.
  - inversion Hfold. now subst.
  - destruct (step t k) as [t'|e] eqn:E.
    + eapply IH; [|exact Hfold]. eapply Hstep; eauto.
    + exfalso. clear -Hfold. induction ks as [|k' ks IH]; simpl in Hfold;
        [discriminate|auto].
Qed.

Lemma sum_leading_preserves : forall (P : Tensor -> Prop),
  (forall t d k r, P t -> tensor_sum_dim t d k = Ok r -> P r) ->
  forall fuel n t r, P t -> sum_leading fuel n t = Ok r -> P r.
Proof.
  intros P Hsum. induction fuel as [|fuel IH]; intros n t r Ht Hr; simpl in Hr.
  - inversion Hr. now subst.
  - destruct (n <? dim t); [|inversion Hr; now subst].
    destruct (tensor_sum_dim t 0 false) as [s|e] eqn:E; simpl in Hr; [|discriminate].
    eapply IH; [|exact Hr]. eapply Hsum; eauto.
Qed.

(** Whatever every summation along one axis keeps, the reducers keep. *)
Lemma reduce_to_shape_preserves : forall (P : Tensor -> Prop),
  (forall t d k r, P t -> tensor_sum_dim t d k = Ok r -> P r) ->
  forall source shp r, P source -> reduce_to_shape source shp = Ok r -> P r.
Proof.
  intros P Hsum source shp r Hsrc Hr. unfold reduce_to_shape in Hr.
  destruct (sum_leading (dim source) (length shp) source) as [s|e] eqn:E;
    simpl in Hr; [|discriminate].
  assert (Hs : P s) by (eapply sum_leading_preserves; eauto).
  eapply (fold_result_preserves P (reduce_to_shape_step shp)); [|exact Hs|exact Hr].
  intros t k r' Ht Hstep. unfold reduce_to_shape_step in Hstep.
  destruct (size t (- Z.of_nat k)) as [a|]; simpl in Hstep; [|discriminate].
  destruct (tuple_get shp (- Z.of_nat k)) as [b|]; simpl in Hstep; [|discriminate].
  destruct (b <? a); [eapply Hsum; eauto|inversion Hstep; now subst].
Qed.

(** X1.  [reduce_to_shape] never raises: for every source and shape it
    returns a tensor whose rank is the smaller of the rank of the source
    and the length of the shape, and whose size at each trailing
    position is 1 where the shape asks for less than the source has and
    the size of the source otherwise. *)
Theorem reduce_to_shape_total : forall (source : Tensor) (shp : list nat),
  exists r,
    reduce_to_shape source shp = Ok r
    /\ dim r = Nat.min (dim source) (length shp)
    /\ forall k, 1 <= k <= dim r ->
         exists a b,
           size source (- Z.of_nat k) = Ok a
           /\ tuple_get shp (- Z.of_nat k) = Ok b
           /\ size r (- Z.of_nat k) = Ok (if b <? a then 1 else a).
Proof.
  intros source shp.
  destruct (reduce_to_shape_spec source shp) as (r & Hr & Hdim & Hsizes).
  exists r. split; [exact Hr|]. split; [exact Hdim|].
  intros k Hk. exists (nth_end (shape source) k), (nth_end shp k).
  unfold size. rewrite !tuple_get_neg by (unfold dim in *; lia).
  rewrite Hsizes by exact Hk. auto.
Qed.

Lemma fits_inb_spec : forall src shp,
  fits_inb src shp = true ->
  length src <= length shp
  /\ forall k, 1 <= k <= length src -> nth_end src k <= nth_end shp k.
Proof.
  intros src shp H. unfold fits_inb in H. apply andb_prop in H. destruct H as [H1 H2].
  apply Nat.leb_le in H1. split; [exact H1|].
  intros k Hk. rewrite range_from_one, forallb_forall in H2.
  apply Nat.leb_le, H2, in_seq. lia.
Qed.

(** X2.  A source that already fits, of rank at most the length of the
    shape and with no trailing size above that of the shape, comes back
    from [reduce_to_shape] as it is. *)
Theorem reduce_to_shape_fitting_source : forall (source : Tensor) (shp : list nat),
  fits_inb (shape source) shp = true ->
  reduce_to_shape source shp = Ok source.
Proof.
  intros source shp H. apply fits_inb_spec in H. destruct H as [H1 H2].
  apply reduce_to_shape_noop; [exact H1|exact H2].
Qed.

Lemma reduce_to_shape_fitting_source_witness :
  reduce_to_shape (zeros [1; 3]) [2; 2; 3] = Ok (zeros [1; 3]).
Proof. apply (reduce_to_shape_fitting_source (zeros [1; 3]) [2; 2; 3]). reflexivity. Defined.

(** * Well-formed tensors *)

Lemma prod_app : forall a b, prod (a ++ b) = prod a * prod b.
Proof.
  induction a as [|x a IH]; intros b; simpl; [lia|]. rewrite IH. lia.
Qed.

Lemma prod_split : forall (s : list nat) i,
  i < length s ->
  prod s = prod (firstn i s) * (nth i s 0 * prod (skipn (S i) s)).
Proof.
  induction s as [|x s IH]; intros i Hi; simpl in Hi; [lia|].
  destruct i as [|i]; simpl.
  - lia.
  - rewrite (IH i) by lia. simpl. lia.
Qed.

Lemma tensor_sum_dim_well_formed : forall t d k r,
  tensor_sum_dim t d k = Ok r -> well_formed r.
Proof.
  intros t d k r H. unfold tensor_sum_dim in H.
  destruct (py_index (dim t) d) as [i|]; [|discriminate].
  inversion H. unfold well_formed. simpl. rewrite length_sum_axis, !prod_app.
  destruct k; simpl; lia.
Qed.

(** X3.  The reducers keep tensors well formed: on a source that holds
    as many elements as its shape says, [reduce_to_target] and
    [reduce_to_shape] return one tensor, which does so too. *)
Theorem reduce_to_target_well_formed : forall source target : Tensor,
  well_formed source ->
  exists r,
    reduce_to_target source target = Ok r
    /\ reduce_to_shape source (shape target) = Ok r
    /\ well_formed r.
Proof.
  intros source target Hwf.
  destruct (reduce_to_shape_spec source (shape target)) as (r & Hr & _).
  exists r. rewrite reduce_to_target_as_shape. split; [exact Hr|]. split; [exact Hr|].
  apply (reduce_to_shape_preserves well_formed) with (source := source) (shp := shape target);
    [|exact Hwf|exact Hr].
  intros t d k r' _ H. eapply tensor_sum_dim_well_formed, H.
Qed.

Lemma reduce_to_target_well_formed_witness :
  exists r,
    reduce_to_target (zeros [2; 3]) (zeros [1; 3]) = Ok r
    /\ reduce_to_shape (zeros [2; 3]) (shape (zeros [1; 3])) = Ok r
    /\ well_formed r.
Proof.
  apply (reduce_to_target_well_formed (zeros [2; 3]) (zeros [1; 3])). reflexivity.
Defined.

(** * Finite sums of reals *)

Lemma sum_R_app : forall l1 l2, sum_R (l1 ++ l2) = (sum_R l1 + sum_R l2)%R.
Proof.
  induction l1 as [|x l1 IH]; intros l2; simpl; [lra|]. rewrite IH. lra.
Qed.

Lemma sum_R_map_ext : forall (A : Type) (g g' : A -> R) (l : list A),
  (forall x, In x l -> g x = g' x) -> sum_R (map g l) = sum_R (map g' l).
Proof. intros A g g' l H. f_equal. now apply map_ext_in. Qed.

Lemma sum_R_map_plus : forall (A : Type) (g g' : A -> R) (l : list A),
  sum_R (map (fun x => g x + g' x)%R l) = (sum_R (map g l) + sum_R (map g' l))%R.
Proof.
  intros A g g' l. induction l as [|x l IH]; simpl; [lra|]. rewrite IH. lra.
Qed.

Lemma sum_R_map_zero : forall (A : Type) (l : list A),
  sum_R (map (fun _ => 0%R) l) = 0%R.
Proof. intros A l. induction l as [|x l IH]; simpl; [reflexivity|]. rewrite IH. lra. Qed.

Lemma sum_R_swap : forall (A B : Type) (G : A -> B -> R) (l1 : list A) (l2 : list B),
  sum_R (map (fun x => sum_R (map (fun y => G x y) l2)) l1)
  = sum_R (map (fun y => sum_R (map (fun x => G x y) l1)) l2).
Proof.
  intros A B G l1 l2. induction l1 as [|x l1 IH]; simpl.
  - now rewrite sum_R_map_zero.
  - rewrite IH. now rewrite <- sum_R_map_plus.
Qed.

Lemma sum_R_seq_shift : forall (g : nat -> R) a n,
  sum_R (map g (seq a n)) = sum_R (map (fun i => g (a + i)) (seq 0 n)).
Proof.
  intros g a n. revert g a. induction n as [|n IH]; intros g a; simpl; [reflexivity|].
  rewrite Nat.add_0_r. f_equal.
  rewrite (IH g (S a)), (IH (fun i => g (a + i)) 1).
  apply sum_R_map_ext. intros i _. f_equal. lia.
Qed.

Lemma sum_R_blocks : forall (g : nat -> R) n m,
  sum_R (map g (seq 0 (n * m)))
  = sum_R (map (fun j => sum_R (map (fun q => g (j * m + q)) (seq 0 m))) (seq 0 n)).
Proof.
  intros g n m. induction n as [|n IH]; [reflexivity|].
  replace (S n * m) with (n * m + m) by lia.
  rewrite seq_app, map_app, sum_R_app, IH, seq_S, map_app, sum_R_app. simpl.
  rewrite (sum_R_seq_shift g (n * m) m). lra.
Qed.

Lemma sum_R_indexed : forall (g : dual -> R) (d : list dual),
  sum_R (map g d) = sum_R (map (fun i => g (nth i d dzero)) (seq 0 (length d))).
Proof.
  intros g d. induction d as [|x d IH]; [reflexivity|].
  simpl length. simpl seq. simpl map. simpl sum_R. f_equal.
  rewrite (sum_R_seq_shift _ 1 (length d)). exact IH.
Qed.

Lemma sum_R_flat_map : forall (A : Type) (g : dual -> R) (F : A -> list dual) (l : list A),
  sum_R (map g (flat_map F l)) = sum_R (map (fun x => sum_R (map g (F x))) l).
Proof.
  intros A g F l. induction l as [|x l IH]; simpl; [reflexivity|].
  now rewrite map_app, sum_R_app, IH.
Qed.

(** * Sums are kept by the summation along an axis *)

Section Additive.
Variable f : dual -> R.
Hypothesis f_add : forall x y, f (dadd x y) = (f x + f y)%R.
Hypothesis f_zero : f dzero = 0%R.

Lemma f_fold_left : forall (A : Type) (g : A -> dual) (l : list A) (a : dual),
  f (fold_left (fun acc x => dadd acc (g x)) l a)
  = (f a + sum_R (map (fun x => f (g x)) l))%R.
Proof.
  intros A g l. induction l as [|x l IH]; intros a; simpl; [lra|].
  rewrite IH, f_add. lra.
Qed.

Lemma f_sum_all : forall (l : list dual),
  f (fold_left dadd l dzero) = sum_R (map f l).
Proof.
  intros l. pose proof (f_fold_left dual (fun x => x) l dzero) as H.
  etransitivity; [exact H|]. rewrite f_zero.
  change (map (fun x => f x) l) with (map f l). lra.
Qed.

Lemma sum_axis_total : forall pre n post (d : list dual),
  length d = pre * (n * post) ->
  sum_R (map f (sum_axis pre n post d)) = sum_R (map f d).
Proof.
  intros pre n post d Hlen. unfold sum_axis.
  rewrite sum_R_flat_map, (sum_R_indexed f d), Hlen, sum_R_blocks.
  apply sum_R_map_ext. intros p _. rewrite map_map.
  rewrite (sum_R_map_ext nat _
             (fun q => sum_R (map (fun j => f (nth ((p * n + j) * post + q) d dzero))
                                  (seq 0 n)))).
  - rewrite (sum_R_swap nat nat
               (fun q j => f (nth ((p * n + j) * post + q) d dzero))).
    rewrite sum_R_blocks. apply sum_R_map_ext. intros j _.
    apply sum_R_map_ext. intros q _. do 2 f_equal. lia.
  - intros q _. rewrite f_fold_left, f_zero. lra.
Qed.

Lemma tensor_sum_dim_total : forall t d k r,
  well_formed t -> tensor_sum_dim t d k = Ok r ->
  sum_R (map f (data r)) = sum_R (map f (data t)).
Proof.
  intros t d k r Hwf H. unfold tensor_sum_dim in H.
  destruct (py_index (dim t) d) as [i|] eqn:E; [|discriminate].
  inversion H. simpl. apply sum_axis_total.
  rewrite Hwf. apply prod_split. eapply py_index_lt, E.
Qed.

Lemma reduce_to_shape_total_sum : forall source shp r,
  well_formed source -> reduce_to_shape source shp = Ok r ->
  sum_R (map f (data r)) = sum_R (map f (data source)).
Proof.
  intros source shp r Hwf Hr.
  assert (H : well_formed r /\ sum_R (map f (data r)) = sum_R (map f (data source))).
  { apply (reduce_to_shape_preserves
             (fun t => well_formed t
                       /\ sum_R (map f (data t)) = sum_R (map f (data source))))
      with (source := source) (shp := shp); [|split; [exact Hwf|reflexivity]|exact Hr].
    intros t d k r' [Ht Hsum] Hstep. split.
    - eapply tensor_sum_dim_well_formed, Hstep.
    - rewrite <- Hsum. eapply tensor_sum_dim_total; eauto. }
  apply H.
Qed.
End Additive.

Lemma torch_data_sum_tensor : forall t,
  torch_data_sum (PyTensor t) = sum_R (map val (data t)).
Proof.
  intros t. unfold torch_data_sum, item_val, tensor_sum. simpl.
  apply (f_sum_all val); [reflexivity|reflexivity].
Qed.

(** X4.  Reducing keeps the total: for a well-formed source, the result
    of [reduce_to_shape] has the [torch_data_sum] of the source, and the
    derivative of its sum is that of the sum of the source. *)
Theorem reduce_to_shape_keeps_data_sum : forall (source : Tensor) (shp : list nat),
  well_formed source ->
  exists r,
    reduce_to_shape source shp = Ok r
    /\ torch_data_sum (PyTensor r) = torch_data_sum (PyTensor source)
    /\ item_tan (tensor_sum r) = item_tan (tensor_sum source).
Proof.
  intros source shp Hwf.
  destruct (reduce_to_shape_spec source shp) as (r & Hr & _).
  exists r. split; [exact Hr|]. split.
  - rewrite !torch_data_sum_tensor.
    apply (reduce_to_shape_total_sum val) with (shp := shp); auto.
  - unfold item_tan, tensor_sum. simpl.
    rewrite !(f_sum_all tan) by reflexivity.
    apply (reduce_to_shape_total_sum tan) with (shp := shp); auto.
Qed.

Lemma reduce_to_shape_keeps_data_sum_witness :
  exists r,
    reduce_to_shape (zeros [2; 3]) [1; 3] = Ok r
    /\ torch_data_sum (PyTensor r) = torch_data_sum (PyTensor (zeros [2; 3]))
    /\ item_tan (tensor_sum r) = item_tan (tensor_sum (zeros [2; 3])).
Proof.
  apply (reduce_to_shape_keeps_data_sum (zeros [2; 3]) [1; 3]). reflexivity.
Defined.

(** * More on add *)

(** X5.  Adding in bulk is adding in turn: [add] of two sequences of
    items one after the other in one call does what [add] of the first
    followed by [add] of the second does, and stops where the first
    raises. *)
Theorem add_app : forall (xs ys : list (list Frame.t * addr)) (h : heap)
                         (self : MultiFrameTensor),
  add (xs ++ ys) h self
  = match add xs h self with
    | (Ok _, (h1, self1)) => add ys h1 self1
    | (Raise e, st) => (Raise e, st)
    end.
Proof.
  induction xs as [|x xs IH]; intros ys h self; simpl; [reflexivity|].
  destruct (add_item h self x) as [[h1 self1]|e]; [apply IH|reflexivity].
Qed.

Lemma keys_dict_set : forall (K V : Type) (keq : K -> K -> bool) (d : list (K * V)) k v,
  map fst (dict_set keq d k v) = map fst d
  \/ map fst (dict_set keq d k v) = map fst d ++ [k].
Proof.
  intros K V keq. induction d as [|[k0 v0] d IH]; intros k v; simpl; [now right|].
  destruct (keq k0 k); simpl; [now left|].
  destruct (IH k v) as [H|H]; rewrite H; auto.
Qed.

Lemma add_item_extends : forall h self (item : list Frame.t * addr) h' self',
  add_item h self item = Ok (h', self') ->
  (exists ext, h' = h ++ ext)
  /\ exists keys, map fst self' = map fst self ++ keys.
Proof.
  intros h self item h' self' H. rewrite add_item_unfold in H.
  destruct (negb (item_ok h item)); [discriminate|].
  destruct (dict_get frozenset_eqb self (key_of item)) as [a|].
  - destruct (tensor_add (deref h a) (deref h (snd item))) as [t|e];
      simpl in H; [|discriminate].
    inversion H; subst. split; [now exists [t]|].
    destruct (keys_dict_set _ _ frozenset_eqb self (key_of item) (length h)) as [E|E];
      rewrite E; [exists []; now rewrite app_nil_r|eexists; reflexivity].
  - inversion H; subst. split; [exists []; now rewrite app_nil_r|].
    destruct (keys_dict_set _ _ frozenset_eqb self (key_of item) (snd item)) as [E|E];
      rewrite E; [exists []; now rewrite app_nil_r|eexists; reflexivity].
Qed.

(** X6.  [add] changes no tensor and drops no key: the heap afterwards
    is the heap before with new tensors at its end, and the keys of the
    accumulator afterwards are the keys before, in their order, with new
    keys at the end; this holds also when [add] raises part way. *)
Theorem add_only_extends : forall (items : list (list Frame.t * addr)) (h : heap)
                                  (self : MultiFrameTensor),
  exists ext keys,
    fst (snd (add items h self)) = h ++ ext
    /\ map fst (snd (snd (add items h self))) = map fst self ++ keys.
Proof.
  induction items as [|item rest IH]; intros h self; simpl.
  - exists [], []. now rewrite !app_nil_r.
  - destruct (add_item h self item) as [[h1 self1]|e] eqn:E.
    + destruct (add_item_extends _ _ _ _ _ E) as [[ext1 ->] [keys1 Hk1]].
      destruct (IH (h ++ ext1) self1) as (ext & keys & Hh & Hk).
      exists (ext1 ++ ext), (keys1 ++ keys).
      rewrite Hh, Hk, Hk1, !app_assoc. auto.
    + exists [], []. simpl. now rewrite !app_nil_r.
Qed.

Lemma length_broadcast_rev : forall a b r,
  broadcast_rev a b = Some r -> length r = Nat.max (length a) (length b).
Proof.
  induction a as [|x a IH]; intros b r H; simpl in H.
  - inversion H. reflexivity.
  - destruct b as [|y b]; [inversion H; simpl; lia|].
    destruct (broadcast_rev a b) as [r'|] eqn:E; [|discriminate].
    specialize (IH b r' E).
    destruct (x =? y); [inversion H; simpl; lia|].
    destruct (x =? 1); [inversion H; simpl; lia|].
    destruct (y =? 1); [inversion H; simpl; lia|discriminate].
Qed.

Lemma dim_tensor_add : forall t u r,
  tensor_add t u = Ok r -> dim r = Nat.max (dim t) (dim u).
Proof.
  intros t u r H. unfold tensor_add, tensor_binop, broadcast_shapes in H.
  destruct (broadcast_rev (rev (shape t)) (rev (shape u))) as [s|] eqn:E;
    simpl in H; [|discriminate].
  inversion H. unfold dim. simpl. rewrite length_rev.
  rewrite (length_broadcast_rev _ _ _ E), !length_rev. reflexivity.
Qed.

Lemma frame_ok_mono : forall rank rank' f,
  rank <= rank' -> frame_ok rank f = true -> frame_ok rank' f = true.
Proof.
  intros rank rank' f Hle H. unfold frame_ok in *. apply andb_prop in H.
  destruct H as [H1 H2]. rewrite H1. simpl.
  apply Z.leb_le in H2. apply Z.leb_le. lia.
Qed.

Lemma forallb_frame_ok_key : forall rank rank' (key frames : frozenset),
  rank <= rank' ->
  forallb (frame_ok rank) key = true ->
  frames = key \/ frozenset_eqb frames key = true ->
  forallb (frame_ok rank') frames = true.
Proof.
  intros rank rank' key frames Hle Hkey Hframes.
  rewrite forallb_forall in *. intros f Hf.
  apply (frame_ok_mono rank); [exact Hle|]. apply Hkey.
  destruct Hframes as [->|Heq]; [exact Hf|].
  apply frozenset_eqb_spec in Heq. now apply Heq.
Qed.

Lemma add_item_entries_ok : forall h self (item : list Frame.t * addr) h' self',
  snd item < length h -> entries_valid h self -> entries_ok h self ->
  add_item h self item = Ok (h', self') ->
  entries_ok h' self'.
Proof.
  intros h self item h' self' Hv Hself Hok H. rewrite add_item_unfold in H.
  destruct (item_ok h item) eqn:Eitem; simpl in H; [|discriminate].
  unfold item_ok in Eitem.
  destruct (dict_get frozenset_eqb self (key_of item)) as [a|] eqn:Eget.
  - destruct (tensor_add (deref h a) (deref h (snd item))) as [t|e] eqn:Et;
      simpl in H; [|discriminate].
    inversion H; subst. intros frames b Hin.
    apply in_dict_set_key in Hin.
    destruct Hin as [Hold|[-> Hkey]].
    + rewrite deref_app_old by (eapply Hself, Hold). eapply Hok, Hold.
    + rewrite deref_app_new.
      apply (forallb_frame_ok_key (dim (deref h (snd item))) _ (key_of item));
        [|exact Eitem|exact Hkey].
      rewrite (dim_tensor_add _ _ _ Et). lia.
  - inversion H; subst. intros frames b Hin.
    apply in_dict_set_key in Hin.
    destruct Hin as [Hold|[-> Hkey]]; [eapply Hok, Hold|].
    apply (forallb_frame_ok_key (dim (deref h' (snd item))) _ (key_of item));
      [lia|exact Eitem|exact Hkey].
Qed.

(** X7.  [add] keeps the invariant it asserts: if every entry of the
    accumulator has all its frames within the rank of its value, so has
    every entry afterwards, the sums of broadcast values included,
    whether [add] returns or raises. *)
Theorem add_keeps_entries_ok : forall (items : list (list Frame.t * addr)) (h : heap)
                                     (self : MultiFrameTensor),
  (forall item : list Frame.t * addr, In item items -> snd item < length h) ->
  (forall (frames : frozenset) (a : addr), In (frames, a) self -> a < length h) ->
  entries_ok h self ->
  entries_ok (fst (snd (add items h self))) (snd (snd (add items h self))).
Proof.
  induction items as [|item rest IH]; intros h self Hitems Hself Hok; simpl;
    [exact Hok|].
  destruct (add_item h self item) as [[h1 self1]|e] eqn:E; [|exact Hok].
  assert (Hitem : snd item < length h) by (apply Hitems; now left).
  destruct (add_item_entry h self item h1 self1 Hitem Hself E)
    as (_ & [ext ->] & Hself1 & _).
  apply IH.
  - intros it Hin. rewrite length_app.
    assert (snd it < length h) by (apply Hitems; now right). lia.
  - exact Hself1.
  - eapply add_item_entries_ok; eauto.
Qed.

Lemma add_keeps_entries_ok_witness :
  entries_ok (fst (snd (add [([frame_A; frame_B], 0); ([frame_B; frame_A], 1)]
                            [zeros [2; 3]; zeros [1; 2; 3]] [])))
             (snd (snd (add [([frame_A; frame_B], 0); ([frame_B; frame_A], 1)]
                            [zeros [2; 3]; zeros [1; 2; 3]] []))).
Proof.
  apply (add_keeps_entries_ok [([frame_A; frame_B], 0); ([frame_B; frame_A], 1)]
           [zeros [2; 3]; zeros [1; 2; 3]] []).
  - intros item [<-|[<-|[]]]; simpl; lia.
  - intros frames a [].
  - intros frames a [].
Defined.

(** * Keys of the accumulator *)

Lemma In_frozenset_fold : forall (l acc : list Frame.t) f,
  In f (fold_left (fun acc f => if mem f acc then acc else acc ++ [f]) l acc)
  <-> In f acc \/ In f l.
Proof.
  induction l as [|x l IH]; intros acc f; simpl; [tauto|].
  rewrite IH. destruct (mem x acc) eqn:E.
  - apply mem_In in E. split; [tauto|]. intros [H|[<-|H]]; auto.
  - rewrite in_app_iff. simpl. tauto.
Qed.

Lemma In_frozenset_of : forall l f, In f (frozenset_of l) <-> In f l.
Proof.
  intros l f. unfold frozenset_of. rewrite In_frozenset_fold. simpl. tauto.
Qed.

Lemma In_key_of : forall (item : list Frame.t * addr) f,
  In f (key_of item) <-> In f (fst item) /\ Frame.vectorized f = true.
Proof. intros item f. unfold key_of. now rewrite In_frozenset_of, filter_In. Qed.

Lemma key_of_same_frames : forall (item item' : list Frame.t * addr),
  (forall f, Frame.vectorized f = true -> (In f (fst item) <-> In f (fst item'))) ->
  frozenset_eqb (key_of item) (key_of item') = true.
Proof.
  intros item item' H. apply frozenset_eqb_spec.
  split; intros f Hf; apply In_key_of in Hf; apply In_key_of;
    destruct Hf as [Hin Hv]; (split; [apply (H f Hv); exact Hin|exact Hv]).
Qed.

(** X8.  The order of a stack does not matter: two items whose stacks
    hold the same vectorized frames, in any order and with any
    non-vectorized frames in between, are filed under one entry, which
    holds the sum of the two values. *)
Theorem add_same_frames_one_entry :
  forall (stack stack' : list Frame.t) (value value' : addr) (h : heap) (t : Tensor),
  (forall f, Frame.vectorized f = true -> (In f stack <-> In f stack')) ->
  item_ok h (stack, value) = true ->
  item_ok h (stack', value') = true ->
  tensor_add (deref h value) (deref h value') = Ok t ->
  add [(stack, value); (stack', value')] h []
  = (Ok tt, (h ++ [t], [(key_of (stack, value), length h)])).
Proof.
  intros stack stack' value value' h t Hsame Hok Hok' Ht.
  assert (Hkey : frozenset_eqb (key_of (stack, value)) (key_of (stack', value')) = true)
    by (apply key_of_same_frames; exact Hsame).
  assert (H1 : add_item h [] (stack, value)
               = Ok (h, [(key_of (stack, value), value)])).
  { rewrite add_item_unfold, Hok. reflexivity. }
  assert (H2 : add_item h [(key_of (stack, value), value)] (stack', value')
               = Ok (h ++ [t], [(key_of (stack, value), length h)])).
  { rewrite add_item_unfold, Hok'. cbn [negb dict_get]. rewrite Hkey.
    cbn [snd]. rewrite Ht. cbn [bind dict_set]. now rewrite Hkey. }
  cbn [add]. rewrite H1, H2. reflexivity.
Qed.

Lemma add_same_frames_one_entry_witness :
  add [([frame_A; Frame.mk "seq" 0 false; frame_B], 0); ([frame_B; frame_A; frame_A], 1)]
      [zeros [2; 3]; zeros [2; 3]] []
  = (Ok tt, ([zeros [2; 3]; zeros [2; 3]] ++ [tensor_map (fun e => dadd e e) (zeros [2; 3])],
             [(key_of ([frame_A; Frame.mk "seq" 0 false; frame_B], 0), 2)])).
Proof.
  apply (add_same_frames_one_entry
           [frame_A; Frame.mk "seq" 0 false; frame_B] [frame_B; frame_A; frame_A] 0 1
           [zeros [2; 3]; zeros [2; 3]]).
  - intros f Hf. simpl. split; intros H.
    + destruct H as [<-|[<-|[<-|[]]]]; auto. discriminate.
    + destruct H as [<-|[<-|[<-|[]]]]; auto.
  - reflexivity.
  - reflexivity.
  - reflexivity.
Defined.

(** * More on sum_to *)

Lemma sum_to_items_some : forall target its h tot r h',
  sum_to_items target its h (Some tot) = (Ok r, h') -> exists a, r = Some a.
Proof.
  intros target. induction its as [|[frames value] its IH]; intros h tot r h' H;
    simpl in H.
  - inversion H. now exists tot.
  - destruct (sum_to_frames target frames h value) as [[h1 v1]|e]; [|discriminate].
    destruct (tensor_add _ _) as [t|e]; [|discriminate].
    eapply IH, H.
Qed.

(** X9.  [sum_to] returns [None] exactly for the empty accumulator. *)
Theorem sum_to_none_iff_empty : forall (self : MultiFrameTensor)
                                       (target_frames : list Frame.t) (h : heap),
  fst (sum_to self target_frames h) = Ok None <-> self = [].
Proof.
  intros self target h. split.
  - destruct self as [|[frames value] rest]; [reflexivity|].
    unfold sum_to. simpl. intros H.
    destruct (sum_to_frames target frames h value) as [[h1 v1]|e]; [|discriminate].
    destruct (sum_to_items target rest _ (Some v1)) as [r h'] eqn:E.
    simpl in H. subst r. destruct (sum_to_items_some _ _ _ _ _ _ E). discriminate.
  - intros ->. reflexivity.
Qed.

Lemma sum_to_frames_extends : forall target frames h value h1 value1,
  sum_to_frames target frames h value = Ok (h1, value1) ->
  exists ext,
    h1 = h ++ ext
    /\ ((ext = [] /\ value1 = value) \/ length h <= value1 < length h1).
Proof.
  intros target. induction frames as [|f frames IH]; intros h value h1 value1 H;
    simpl in H.
  - inversion H. exists []. rewrite app_nil_r. auto.
  - destruct (negb (mem f target)); [|apply IH, H].
    destruct (size (deref h value) (Frame.dim f)) as [n|]; simpl in H; [|discriminate].
    destruct (negb (n =? 1)); [|apply IH, H].
    destruct (tensor_sum_dim (deref h value) (Frame.dim f) true) as [t|];
      simpl in H; [|discriminate].
    destruct (IH _ _ _ _ H) as (ext & -> & Hcase).
    exists ([t] ++ ext). rewrite app_assoc. split; [reflexivity|]. right.
    rewrite !length_app in *. simpl in *.
    destruct Hcase as [[-> ->]|Hnew]; simpl; lia.
Qed.

Lemma squeeze_leading_heap_set : forall fuel h value,
  exists x, squeeze_leading fuel h value = heap_set h value x.
Proof.
  induction fuel as [|fuel IH]; intros h value; simpl.
  - exists (deref h value). now rewrite heap_set_deref.
  - destruct (shape (deref h value)) as [|n s];
      [exists (deref h value); now rewrite heap_set_deref|].
    destruct (n =? 1); [|exists (deref h value); now rewrite heap_set_deref].
    destruct (IH (heap_set h value (squeeze_0 (deref h value))) value) as [x ->].
    exists x. apply heap_set_twice.
Qed.

Lemma squeeze_leading_no_leading_one : forall fuel h value,
  has_leading_one (shape (deref h value)) = false ->
  squeeze_leading fuel h value = h.
Proof.
  intros [|fuel] h value H; simpl; [reflexivity|].
  destruct (shape (deref h value)) as [|n s]; [reflexivity|].
  destruct (Nat.eqb_spec n 1) as [->|_]; [discriminate|reflexivity].
Qed.

Lemma heap_set_beyond : forall h ext value x,
  length h <= value ->
  heap_set (h ++ ext) value x = h ++ heap_set ext (value - length h) x.
Proof.
  induction h as [|y h IH]; intros ext value x Hv; simpl.
  - now rewrite Nat.sub_0_r.
  - destruct value as [|value]; simpl in Hv; [lia|].
    simpl. f_equal. apply IH. lia.
Qed.

Lemma sum_to_items_extends : forall target (h : heap) its ext total,
  (forall (frames : frozenset) (a : addr),
     In (frames, a) its ->
     a < length h /\ has_leading_one (shape (deref h a)) = false) ->
  exists ext', snd (sum_to_items target its (h ++ ext) total) = h ++ ext'.
Proof.
  intros target h. induction its as [|[frames value] its IH]; intros ext total Hits;
    simpl.
  - now exists ext.
  - destruct (Hits frames value (or_introl eq_refl)) as [Hv Hshape].
    assert (Hrest : forall (frames : frozenset) (a : addr),
              In (frames, a) its ->
              a < length h /\ has_leading_one (shape (deref h a)) = false)
      by (intros fr a Hin; apply (Hits fr a); now right).
    destruct (sum_to_frames target frames (h ++ ext) value) as [[h1 v1]|e] eqn:E;
      [|now exists ext].
    destruct (sum_to_frames_extends _ _ _ _ _ _ E) as (ext1 & -> & Hcase).
    assert (Hsq : exists ext2,
              squeeze_leading (dim (deref ((h ++ ext) ++ ext1) v1))
                              ((h ++ ext) ++ ext1) v1 = h ++ ext2).
    { destruct Hcase as [[-> ->]|Hnew].
      - rewrite app_nil_r. rewrite squeeze_leading_no_leading_one; [now exists ext|].
        now rewrite deref_app_old.
      - destruct (squeeze_leading_heap_set
                    (dim (deref ((h ++ ext) ++ ext1) v1)) ((h ++ ext) ++ ext1) v1)
          as [x ->].
        rewrite <- app_assoc. rewrite heap_set_beyond; [eexists; reflexivity|].
        rewrite length_app in Hnew. lia. }
    destruct Hsq as [ext2 ->].
    destruct total as [tot|]; [|apply IH; exact Hrest].
    destruct (tensor_add _ _) as [t|e]; [|now exists ext2].
    rewrite <- app_assoc. apply IH. exact Hrest.
Qed.

(** X10.  Where no stored tensor has a leading axis of size 1, [sum_to]
    leaves every stored tensor as it was: the heap afterwards is the
    heap before with new tensors at its end. *)
Theorem sum_to_keeps_unsqueezable_entries :
  forall (self : MultiFrameTensor) (target_frames : list Frame.t) (h : heap),
  (forall (frames : frozenset) (a : addr),
     In (frames, a) self ->
     a < length h /\ has_leading_one (shape (deref h a)) = false) ->
  exists ext,
    snd (sum_to self target_frames h) = h ++ ext
    /\ forall (frames : frozenset) (a : addr),
         In (frames, a) self ->
         deref (snd (sum_to self target_frames h)) a = deref h a.
Proof.
  intros self target h Hself. unfold sum_to.
  destruct (sum_to_items_extends target h self [] None Hself) as [ext Hext].
  rewrite app_nil_r in Hext. exists ext. split; [exact Hext|].
  intros frames a Hin. rewrite Hext. apply deref_app_old. now apply (Hself frames a).
Qed.

Lemma sum_to_keeps_unsqueezable_entries_witness :
  exists ext,
    snd (sum_to [([frame_A; frame_B], 0); ([frame_A], 1)] [frame_A]
                [zeros [2; 3]; zeros [3]])
    = [zeros [2; 3]; zeros [3]] ++ ext
    /\ forall (frames : frozenset) (a : addr),
         In (frames, a) [([frame_A; frame_B], 0); ([frame_A], 1)] ->
         deref (snd (sum_to [([frame_A; frame_B], 0); ([frame_A], 1)] [frame_A]
                            [zeros [2; 3]; zeros [3]])) a
         = deref [zeros [2; 3]; zeros [3]] a.
Proof.
  apply (sum_to_keeps_unsqueezable_entries
           [([frame_A; frame_B], 0); ([frame_A], 1)] [frame_A] [zeros [2; 3]; zeros [3]]).
  intros frames a [H|[H|[]]]; inversion H; subst; simpl; split; (lia || reflexivity).
Defined.

(** * A result of sum_to can be the stored tensor itself *)

Lemma sum_to_frames_all_in_target : forall target frames h value,
  subsetb frames target = true ->
  sum_to_frames target frames h value = Ok (h, value).
Proof.
  intros target. induction frames as [|f frames IH]; intros h value H; simpl in *;
    [reflexivity|].
  apply andb_prop in H. destruct H as [Hf Hrest]. rewrite Hf. simpl. now apply IH.
Qed.

(** X11.  Where every frame of the single entry is in the target,
    [sum_to] sums nothing and returns the stored tensor object itself,
    squeezed in place, not a copy. *)
Theorem sum_to_returns_stored_object :
  forall (frames : frozenset) (value : addr) (target_frames : list Frame.t) (h : heap),
  subsetb frames target_frames = true ->
  sum_to [(frames, value)] target_frames h
  = (Ok (Some value), squeeze_leading (dim (deref h value)) h value).
Proof.
  intros frames value target h H. unfold sum_to. simpl.
  now rewrite sum_to_frames_all_in_target.
Qed.

Lemma sum_to_returns_stored_object_witness :
  sum_to [([frame_A], 0)] [frame_A; frame_B] [zeros [2; 3]]
  = (Ok (Some 0), squeeze_leading (dim (deref [zeros [2; 3]] 0)) [zeros [2; 3]] 0).
Proof.
  apply (sum_to_returns_stored_object [frame_A] 0 [frame_A; frame_B] [zeros [2; 3]]).
  reflexivity.
Defined.

(** * The caches of Dice *)

(** X12.  [get_log_factors] is memoized: after a call for a target, a
    call for the same set of frames returns the same list and leaves the
    engine as it is. *)
Theorem get_log_factors_memoized : forall (d : Dice) (target target' : frozenset),
  frozenset_eqb target target' = true ->
  get_log_factors (snd (get_log_factors d target)) target'
  = (fst (get_log_factors d target), snd (get_log_factors d target)).
Proof.
  intros d target target' Heq.
  destruct (dict_get frozenset_eqb (_log_factors_cache d) target) as [l|] eqn:E.
  - unfold get_log_factors at 2 3. rewrite E. simpl.
    unfold get_log_factors.
    rewrite <- (dict_get_keq _ _ frozenset_eqb frozenset_eqb_sym frozenset_eqb_trans
                  (_log_factors_cache d) target target' Heq), E.
    reflexivity.
  - rewrite (get_log_factors_miss d target E). simpl.
    unfold get_log_factors. simpl _log_factors_cache.
    rewrite (dict_get_set_same _ _ frozenset_eqb frozenset_eqb_sym frozenset_eqb_trans
               (_log_factors_cache d) target target' _ Heq).
    reflexivity.
Qed.

Lemma get_log_factors_memoized_witness :
  get_log_factors (snd (get_log_factors (mkDice [] [] [] []) [frame_A; frame_B]))
                  [frame_B; frame_A]
  = (fst (get_log_factors (mkDice [] [] [] []) [frame_A; frame_B]),
     snd (get_log_factors (mkDice [] [] [] []) [frame_A; frame_B])).
Proof.
  apply (get_log_factors_memoized (mkDice [] [] [] []) [frame_A; frame_B]
           [frame_B; frame_A]).
  reflexivity.
Defined.

(** X13.  On an engine that only the class's methods touched,
    [get_dice_prob] does not depend on the shape it is given: two calls
    that differ in the shape alone return the same value and the same
    engine. *)
Theorem get_dice_prob_ignores_shape : forall (d : Dice) (shape shape' : list nat)
                                             (ordinal : frozenset),
  reachable d ->
  get_dice_prob d shape ordinal = get_dice_prob d shape' ordinal.
Proof.
  intros d shape shape' ordinal Hd. apply reachable_cache_ok in Hd.
  unfold get_dice_prob. now rewrite !dice_prob_cache_miss by exact Hd.
Qed.

Lemma get_dice_prob_ignores_shape_witness :
  get_dice_prob (mkDice [] [] [] []) [4] [] = get_dice_prob (mkDice [] [] [] []) [2; 3] [].
Proof.
  apply (get_dice_prob_ignores_shape (mkDice [] [] [] []) [4] [2; 3] []).
  apply (reach_init [] []). reflexivity.
Defined.

Lemma filter_none : forall (A : Type) (p : A -> bool) (l : list A),
  (forall x, In x l -> p x = false) -> filter p l = [].
Proof.
  intros A p l H. induction l as [|x l IH]; simpl; [reflexivity|].
  rewrite (H x (or_introl eq_refl)). apply IH. intros y Hy. apply H. now right.
Qed.

(** X14.  Where no recorded ordinal is a subset of the queried one, the
    factors hold no tensor and [get_dice_prob] raises [AttributeError]:
    the sum is a Python number, which has no [exp]. *)
Theorem get_dice_prob_without_upstream_terms :
  forall (d : Dice) (shape : list nat) (ordinal : frozenset),
  reachable d ->
  (forall o ts, In (o, ts) (log_probs d) -> subsetb o ordinal = false) ->
  fst (get_dice_prob d shape ordinal) = Raise AttributeError.
Proof.
  intros d shape ordinal Hd Hnone.
  rewrite get_dice_prob_value by (apply reachable_cache_ok, Hd).
  unfold log_factors_spec.
  rewrite (filter_none _ (fun it => subsetb (fst it) ordinal) (log_probs d)).
  - cbn -[is_identically_zero]. rewrite app_nil_r.
    match goal with |- context [is_identically_zero ?x] =>
      destruct (is_identically_zero x) end; reflexivity.
  - intros [o ts] Hin. simpl. eapply Hnone, Hin.
Qed.

Lemma get_dice_prob_without_upstream_terms_witness :
  fst (get_dice_prob (mkDice [([frame_F], (0 + ln 3)%R)]
                             [([frame_F], [PyTensor (zeros [4])])] [] [])
                     [4] [])
  = Raise AttributeError.
Proof.
  apply (get_dice_prob_without_upstream_terms
           (mkDice [([frame_F], (0 + ln 3)%R)] [([frame_F], [PyTensor (zeros [4])])] [] [])
           [4] []).
  - apply (reach_init [("z"%string, sequential_site (zeros [4]) 3)]
                      [("z"%string, [frame_F])]).
    unfold Dice_init, init_loop.
    rewrite (init_site_sequential _ [] [] "z" (zeros [4]) [frame_F] 3)
      by (reflexivity || lia).
    reflexivity.
  - intros o ts [H|[]]. inversion H. reflexivity.
Defined.

(** * Dice.__init__ site by site *)

Lemma init_loop_app : forall ordering a b acc,
  init_loop ordering (a ++ b) acc
  = (acc' <- init_loop ordering a acc ;; init_loop ordering b acc').
Proof.
  intros ordering. induction a as [|x a IH]; intros b acc; simpl; [reflexivity|].
  destruct (init_site ordering acc x) as [acc'|e]; simpl; [apply IH|reflexivity].
Qed.

Lemma init_site_skipped : forall ordering acc name site,
  skipped_site site = true -> init_site ordering acc (name, site) = Ok acc.
Proof.
  intros ordering [ld lps] name site H. unfold skipped_site in H. unfold init_site.
  destruct (negb (String.eqb (site_type site) "sample")); [reflexivity|].
  simpl in H. now rewrite H.
Qed.

(** X15.  A site that is not a sample site, or whose score is
    identically zero, leaves no trace in the engine: [Dice.__init__]
    gives the same result with the site and without it, and asks for no
    ordinal of it. *)
Theorem Dice_init_skips_site :
  forall (before after : list (string * Site)) (name : string) (site : Site)
         (ordering : list (string * frozenset)),
  skipped_site site = true ->
  Dice_init (before ++ (name, site) :: after) ordering
  = Dice_init (before ++ after) ordering.
Proof.
  intros before after name site ordering H. unfold Dice_init.
  rewrite !init_loop_app. simpl.
  destruct (init_loop ordering before ([], [])) as [acc|e]; [|reflexivity].
  simpl. now rewrite init_site_skipped.
Qed.

Lemma Dice_init_skips_site_witness :
  Dice_init ([("x"%string, sampled_site (zeros [4]))]
               ++ ("w"%string, mkSite "param" (PyTensor (zeros [4])) None None)
               :: [("y"%string, sampled_site (zeros [4]))])
            [("x"%string, []); ("y"%string, [frame_F])]
  = Dice_init ([("x"%string, sampled_site (zeros [4]))]
                 ++ [("y"%string, sampled_site (zeros [4]))])
              [("x"%string, []); ("y"%string, [frame_F])].
Proof.
  apply (Dice_init_skips_site [("x"%string, sampled_site (zeros [4]))]
           [("y"%string, sampled_site (zeros [4]))] "w"
           (mkSite "param" (PyTensor (zeros [4])) None None)).
  reflexivity.
Defined.

Lemma init_site_missing_ordinal : forall ordering acc name site,
  skipped_site site = false ->
  dict_get String.eqb ordering name = None ->
  init_site ordering acc (name, site) = Raise KeyError.
Proof.
  intros ordering [ld lps] name site H Hnone. unfold skipped_site in H.
  apply orb_false_elim in H. destruct H as [H1 H2].
  unfold init_site. now rewrite H1, H2, Hnone.
Qed.

(** X16.  [Dice.__init__] raises [KeyError] at the first contributing
    site whose name the ordering does not hold. *)
Theorem Dice_init_missing_ordinal :
  forall (before after : list (string * Site)) (name : string) (site : Site)
         (ordering : list (string * frozenset)) (d : Dice),
  Dice_init before ordering = Ok d ->
  skipped_site site = false ->
  dict_get String.eqb ordering name = None ->
  Dice_init (before ++ (name, site) :: after) ordering = Raise KeyError.
Proof.
  intros before after name site ordering d Hbefore Hsite Hnone. unfold Dice_init in *.
  rewrite init_loop_app.
  destruct (init_loop ordering before ([], [])) as [acc|e]; [|discriminate].
  simpl. now rewrite init_site_missing_ordinal.
Qed.

Lemma Dice_init_missing_ordinal_witness :
  Dice_init ([("x"%string, sampled_site (zeros [4]))]
               ++ ("y"%string, sampled_site (zeros [4])) :: [])
            [("x"%string, [])]
  = Raise KeyError.
Proof.
  apply (Dice_init_missing_ordinal [("x"%string, sampled_site (zeros [4]))] []
           "y" (sampled_site (zeros [4])) [("x"%string, [])]
           (mkDice [] [([], [PyTensor (tensor_map (fun e => dsub e (ddetach e))
                                                  (zeros [4]))])] [] [])).
  - reflexivity.
  - reflexivity.
  - reflexivity.
Defined.

(** * What Dice.__init__ records *)

Lemma init_site_ok : forall ordering ld lps node ld' lps',
  init_site ordering (ld, lps) node = Ok (ld', lps') ->
  (ld' = ld /\ lps' = lps)
  \/ exists o lp,
       lps' = dict_set frozenset_eqb lps o (default_get lps o [] ++ [lp])
       /\ (ld' = ld
           \/ exists total,
                (0 < total)%Z
                /\ ld' = dict_set frozenset_eqb ld o
                                  (default_get ld o 0 + ln (IZR total))%R).
Proof.
  intros ordering ld lps [name site] ld' lps' H. unfold init_site in H.
  destruct (negb (String.eqb (site_type site) "sample"));
    [inversion H; now left|].
  destruct (is_identically_zero (score_function site)); [inversion H; now left|].
  destruct (dict_get String.eqb ordering name) as [o|]; [|discriminate].
  right. exists o.
  destruct (truthy (infer_enumerate site)).
  - destruct (is_sequential (infer_enumerate site)).
    + destruct (infer_enum_total site) as [total|]; [|discriminate].
      unfold math_log in H. destruct (Z.leb_spec total 0) as [|Hpos]; [discriminate|].
      simpl in H. inversion H. eexists. split; [reflexivity|].
      right. exists total. split; [lia|reflexivity].
    + simpl in H. inversion H. eexists. split; [reflexivity|]. now left.
  - destruct (sub_detach (score_function site)) as [lp|]; simpl in H; [|discriminate].
    inversion H. eexists. split; [reflexivity|]. now left.
Qed.

Lemma ln_IZR_nonneg : forall total, (0 < total)%Z -> (0 <= ln (IZR total))%R.
Proof.
  intros total H. destruct (Z.eq_dec total 1) as [->|Hne].
  - rewrite ln_1. lra.
  - rewrite <- ln_1. left. apply ln_increasing; [lra|].
    apply IZR_lt. lia.
Qed.

Lemma default_get_in : forall (V : Type) (d : list (frozenset * V)) k dflt,
  default_get d k dflt = dflt \/ exists k0, In (k0, default_get d k dflt) d.
Proof.
  intros V d k dflt. unfold default_get.
  destruct (dict_get frozenset_eqb d k) as [v|] eqn:E; [|now left].
  right. destruct (dict_get_in _ _ _ _ _ _ E) as (k0 & Hin & _). now exists k0.
Qed.

Lemma dict_get_after_set : forall (V : Type) (d : list (frozenset * V)) k v k',
  (frozenset_eqb k' k = true \/ exists v', dict_get frozenset_eqb d k' = Some v') ->
  exists v', dict_get frozenset_eqb (dict_set frozenset_eqb d k v) k' = Some v'.
Proof.
  intros V d k v k' H.
  destruct (frozenset_eqb k k') eqn:E.
  - exists v. apply dict_get_set_same;
      [apply frozenset_eqb_sym|apply frozenset_eqb_trans|exact E].
  - rewrite dict_get_set_other;
      [|apply frozenset_eqb_sym|apply frozenset_eqb_trans|exact E].
    destruct H as [H|H]; [|exact H].
    rewrite frozenset_eqb_sym in H. congruence.
Qed.

Lemma init_loop_records : forall ordering nodes ld lps ld' lps',
  init_loop ordering nodes (ld, lps) = Ok (ld', lps') ->
  (forall o r, In (o, r) ld -> (0 <= r)%R) ->
  (forall o ts, In (o, ts) lps -> ts <> []) ->
  (forall o r, In (o, r) ld -> exists ts, dict_get frozenset_eqb lps o = Some ts) ->
  (forall o r, In (o, r) ld' -> (0 <= r)%R)
  /\ (forall o ts, In (o, ts) lps' -> ts <> [])
  /\ (forall o r, In (o, r) ld' -> exists ts, dict_get frozenset_eqb lps' o = Some ts).
Proof.
  intros ordering. induction nodes as [|node nodes IH];
    intros ld lps ld' lps' H Hpos Hne Hkeys; cbn [init_loop] in H.
  - inversion H; subst. auto.
  - destruct (init_site ordering (ld, lps) node) as [[ld1 lps1]|e] eqn:E;
      cbn [bind] in H; [|discriminate].
    apply (IH ld1 lps1 ld' lps' H);
      destruct (init_site_ok _ _ _ _ _ _ E) as [[-> ->]|(o & lp & -> & Hld)]; auto.
    + destruct Hld as [->|(total & Htotal & ->)]; [exact Hpos|].
      intros o' r Hin. apply in_dict_set_key in Hin.
      destruct Hin as [Hin|[-> _]]; [eapply Hpos, Hin|].
      pose proof (ln_IZR_nonneg total Htotal) as Hln.
      destruct (default_get_in R ld o 0%R) as [->|[k0 Hin]]; [lra|].
      pose proof (Hpos _ _ Hin). lra.
    + intros o' ts Hin. apply in_dict_set_key in Hin.
      destruct Hin as [Hin|[-> _]]; [eapply Hne, Hin|].
      intros Habs. apply app_eq_nil in Habs. destruct Habs. discriminate.
    + intros o' r Hin. apply dict_get_after_set.
      destruct Hld as [->|(total & Htotal & ->)]; [right; eapply Hkeys, Hin|].
      apply in_dict_set_key in Hin.
      destruct Hin as [Hin|[_ [->|Hk]]];
        [right; eapply Hkeys, Hin|left; apply frozenset_eqb_refl|now left].
Qed.

Lemma reachable_fields : forall d,
  reachable d ->
  exists guide_trace ordering acc,
    init_loop ordering guide_trace ([], []) = Ok acc
    /\ log_denom d = fst acc /\ log_probs d = snd acc.
Proof.
  induction 1 as [trace ordering d Hinit|d t _ IH|d s o _ IH|d c o _ IH].
  - unfold Dice_init in Hinit.
    destruct (init_loop ordering trace ([], [])) as [acc|] eqn:E; [|discriminate].
    simpl in Hinit. inversion Hinit. exists trace, ordering, acc. auto.
  - destruct (get_log_factors_fields d t) as (-> & -> & _). exact IH.
  - destruct (get_log_factors_fields d o) as (H1 & H2 & _).
    destruct (get_dice_prob_state d s o) as [->|[->|[p ->]]]; simpl;
      rewrite ?H1, ?H2; exact IH.
  - rewrite expectation_state.
    destruct (get_log_factors_fields d o) as (H1 & H2 & _).
    destruct (get_dice_prob_state d (shape c) o) as [->|[->|[p ->]]]; simpl;
      rewrite ?H1, ?H2; exact IH.
Qed.

Lemma reachable_records : forall d,
  reachable d ->
  (forall o r, In (o, r) (log_denom d) -> (0 <= r)%R)
  /\ (forall o ts, In (o, ts) (log_probs d) -> ts <> [])
  /\ (forall o r, In (o, r) (log_denom d) ->
                  exists ts, dict_get frozenset_eqb (log_probs d) o = Some ts).
Proof.
  intros d Hd. destruct (reachable_fields d Hd) as (trace & ordering & [ld lps] & H & -> & ->).
  simpl. apply (init_loop_records ordering trace [] [] ld lps H);
    intros ? ? [].
Qed.

Lemma sum_R_nonneg : forall l, (forall r, In r l -> (0 <= r)%R) -> (0 <= sum_R l)%R.
Proof.
  induction l as [|x l IH]; intros H; simpl; [lra|].
  pose proof (H x (or_introl eq_refl)).
  assert (0 <= sum_R l)%R by (apply IH; intros r Hr; apply H; now right). lra.
Qed.

(** X17.  The denominators are logarithms of counts: on a reachable
    engine the [log_denom] total of any target is not negative, and
    where it is not zero the factor list starts with its negation, a
    negative number. *)
Theorem log_denom_term_is_negative : forall (d : Dice) (target_ordinal : frozenset),
  reachable d ->
  (0 <= log_denom_total (log_denom d) target_ordinal)%R
  /\ (log_denom_total (log_denom d) target_ordinal <> 0%R ->
      (- log_denom_total (log_denom d) target_ordinal < 0)%R
      /\ exists rest,
           fst (get_log_factors d target_ordinal)
           = PyNum (- log_denom_total (log_denom d) target_ordinal)%R :: rest).
Proof.
  intros d target Hd.
  destruct (reachable_records d Hd) as (Hpos & _ & _).
  assert (Htotal : (0 <= log_denom_total (log_denom d) target)%R).
  { unfold log_denom_total. apply sum_R_nonneg. intros r Hr.
    apply in_map_iff in Hr. destruct Hr as ([o r'] & <- & Hin).
    apply filter_In in Hin. eapply Hpos, (proj1 Hin). }
  split; [exact Htotal|].
  intros Hne. split; [lra|].
  rewrite (get_log_factors_value d target (reachable_cache_ok d Hd)).
  unfold log_factors_spec.
  rewrite is_identically_zero_nonzero by exact Hne.
  eexists. reflexivity.
Qed.

(** X18.  On a reachable engine every recorded ordinal has at least one
    term and every ordinal with a denominator is recorded; so the
    factor list of a target is empty exactly when the [log_denom] total
    is zero and no recorded ordinal is a subset of the target. *)
Theorem recorded_ordinals_have_terms : forall d : Dice,
  reachable d ->
  (forall o ts, In (o, ts) (log_probs d) -> ts <> [])
  /\ (forall o r, In (o, r) (log_denom d) ->
                  exists ts, dict_get frozenset_eqb (log_probs d) o = Some ts)
  /\ forall target,
       fst (get_log_factors d target) = []
       <-> log_denom_total (log_denom d) target = 0%R
           /\ forall o ts, In (o, ts) (log_probs d) -> subsetb o target = false.
Proof.
  intros d Hd. destruct (reachable_records d Hd) as (_ & Hne & Hkeys).
  split; [exact Hne|]. split; [exact Hkeys|].
  intros target.
  rewrite (get_log_factors_value d target (reachable_cache_ok d Hd)).
  rewrite log_factors_spec_nil. split; intros [H0 H]; (split; [exact H0|]).
  - intros o ts Hin. destruct (subsetb o target) eqn:E; [|reflexivity].
    exfalso. apply (Hne o ts Hin). now apply (H o ts).
  - intros o ts Hin Hsub. rewrite (H o ts Hin) in Hsub. discriminate.
Qed.

(** * Expansion to the shape a tensor already has *)

Lemma flat_map_seq_shift : forall (B : Type) (F : nat -> list B) a n,
  flat_map F (seq (S a) n) = flat_map (fun i => F (S i)) (seq a n).
Proof.
  intros B F a n. revert a. induction n as [|n IH]; intros a; simpl; [reflexivity|].
  now rewrite IH.
Qed.

Lemma flat_map_ext_within : forall (A B : Type) (F G : A -> list B) (l : list A),
  (forall x, In x l -> F x = G x) -> flat_map F l = flat_map G l.
Proof.
  intros A B F G l H. induction l as [|x l IH]; simpl; [reflexivity|].
  rewrite (H x (or_introl eq_refl)), IH; [reflexivity|].
  intros y Hy. apply H. now right.
Qed.

Lemma In_firstn_list : forall (B : Type) n (l : list B) e, In e (firstn n l) -> In e l.
Proof.
  intros B n l e H. rewrite <- (firstn_skipn n l). apply in_or_app. now left.
Qed.

Lemma In_skipn_list : forall (B : Type) n (l : list B) e, In e (skipn n l) -> In e l.
Proof.
  intros B n l e H. rewrite <- (firstn_skipn n l). apply in_or_app. now right.
Qed.

Lemma chunks_concat : forall (B : Type) (d : list B) a m,
  length d = a * m ->
  flat_map (fun i => firstn m (skipn (i * m) d)) (seq 0 a) = d.
Proof.
  intros B d a m. revert d. induction a as [|a IH]; intros d Hlen.
  - simpl in *. now destruct d.
  - simpl seq. simpl flat_map. rewrite flat_map_seq_shift.
    rewrite (flat_map_ext _ (fun i => firstn m (skipn (i * m) (skipn m d)))).
    + rewrite IH; [apply firstn_skipn|]. rewrite length_skipn. simpl in Hlen. lia.
    + intros i. rewrite skipn_skipn. do 2 f_equal. lia.
Qed.

Lemma expand_same : forall (s : list nat) (d : list dual),
  length d = prod s -> expand s s d = d.
Proof.
  induction s as [|a s IH]; intros d Hlen; simpl; [reflexivity|].
  rewrite Nat.eqb_refl.
  rewrite (flat_map_ext_within _ _ _ (fun i => firstn (prod s) (skipn (i * prod s) d))).
  - apply chunks_concat. exact Hlen.
  - intros i Hi. apply in_seq in Hi. apply IH.
    rewrite length_firstn, length_skipn. simpl in Hlen. nia.
Qed.

Lemma pad_shape_same : forall s, pad_shape (length s) s = s.
Proof. intros s. unfold pad_shape. now rewrite Nat.sub_diag. Qed.

Lemma tensor_binop_same_shape : forall f t u,
  well_formed t -> well_formed u -> shape u = shape t ->
  tensor_binop f t u = Ok {| shape := shape t; data := map2 f (data t) (data u) |}.
Proof.
  intros f t u Ht Hu Hshape. unfold tensor_binop.
  rewrite Hshape, broadcast_shapes_same, pad_shape_same.
  rewrite !expand_same; [reflexivity|now rewrite <- Hshape|exact Ht].
Qed.

Lemma map2_map_right : forall f g (l : list dual),
  map2 f l (map g l) = map (fun x => f x (g x)) l.
Proof. intros f g l. induction l as [|x l IH]; simpl; [reflexivity|]. now rewrite IH. Qed.

Lemma sub_detach_well_formed : forall t : Tensor,
  well_formed t ->
  exists v,
    sub_detach (PyTensor t) = Ok (PyTensor v)
    /\ shape v = shape t
    /\ well_formed v
    /\ all_val 0 v
    /\ map tan (data v) = map tan (data t).
Proof.
  intros t Hwf. unfold sub_detach, tensor_sub.
  rewrite tensor_binop_same_shape;
    [|exact Hwf|unfold well_formed, detach; simpl; now rewrite length_map|reflexivity].
  simpl. eexists. split; [reflexivity|]. simpl. rewrite map2_map_right.
  split; [reflexivity|]. split; [|split].
  - unfold well_formed. simpl. now rewrite length_map.
  - unfold all_val. simpl. apply Forall_map, Forall_forall. intros e _.
    unfold dsub, ddetach. simpl. lra.
  - rewrite map_map. apply map_ext. intros e. unfold dsub, ddetach. simpl. lra.
Qed.

(** X19.  The term recorded for a Monte-Carlo sampled site,
    [log_prob - log_prob.detach()], is for a well-formed [log_prob] a
    well-formed tensor of the same shape whose elements all have the
    forward value 0 and the derivative of [log_prob]. *)
Theorem sub_detach_is_surrogate : forall t : Tensor,
  well_formed t ->
  exists v,
    sub_detach (PyTensor t) = Ok (PyTensor v)
    /\ shape v = shape t
    /\ well_formed v
    /\ all_val 0 v
    /\ map tan (data v) = map tan (data t).
Proof. exact sub_detach_well_formed. Qed.

Lemma sub_detach_is_surrogate_witness :
  exists v,
    sub_detach (PyTensor (zeros [2; 3])) = Ok (PyTensor v)
    /\ shape v = shape (zeros [2; 3])
    /\ well_formed v
    /\ all_val 0 v
    /\ map tan (data v) = map tan (data (zeros [2; 3])).
Proof. apply (sub_detach_is_surrogate (zeros [2; 3])). reflexivity. Defined.

(** * Engines of Monte-Carlo sampled sites only *)

Lemma In_expand : forall from to (d : list dual) e,
  In e (expand from to d) -> In e d.
Proof.
  induction from as [|a from IH]; intros to d e H; simpl in H; [exact H|].
  destruct to as [|b to]; [exact H|].
  destruct (a =? b); apply in_flat_map in H; destruct H as (i & _ & H).
  - apply IH in H. apply In_firstn_list in H. now apply In_skipn_list in H.
  - now apply IH in H.
Qed.

Lemma Forall_map2 : forall (P Q R' : dual -> Prop) f l1 l2,
  (forall x y, P x -> Q y -> R' (f x y)) ->
  Forall P l1 -> Forall Q l2 -> Forall R' (map2 f l1 l2).
Proof.
  intros P Q R' f l1 l2 Hf H1. revert l2. induction H1 as [|x l1 Hx _ IH];
    intros l2 H2; simpl; [constructor|].
  destruct H2 as [|y l2 Hy H2]; constructor; auto.
Qed.

Lemma tensor_add_all_val_zero : forall t u r,
  all_val 0 t -> all_val 0 u -> tensor_add t u = Ok r -> all_val 0 r.
Proof.
  intros t u r Ht Hu H. unfold tensor_add, tensor_binop in H.
  destruct (broadcast_shapes (shape t) (shape u)) as [s|]; [|discriminate].
  inversion H. unfold all_val in *. simpl.
  apply (Forall_map2 (fun e => val e = 0%R) (fun e => val e = 0%R)).
  - intros x y Hx Hy. unfold dadd. simpl. lra.
  - apply Forall_forall. intros e He. apply In_expand in He.
    rewrite Forall_forall in Ht. now apply Ht.
  - apply Forall_forall. intros e He. apply In_expand in He.
    rewrite Forall_forall in Hu. now apply Hu.
Qed.

Lemma init_site_monte_carlo : forall ordering ld lps name site ld' lps',
  monte_carlo_site site ->
  init_site ordering (ld, lps) (name, site) = Ok (ld', lps') ->
  ld' = ld
  /\ exists o v,
       zero_valued v
       /\ lps' = dict_set frozenset_eqb lps o (default_get lps o [] ++ [v]).
Proof.
  intros ordering ld lps name site ld' lps' (Htype & Henum & t & Hscore & Hwf) H.
  unfold init_site in H. rewrite Htype, Hscore, Henum in H. simpl in H.
  destruct (dict_get String.eqb ordering name) as [o|]; [|discriminate].
  destruct (sub_detach_well_formed t Hwf) as (v & Hv & _ & _ & Hzero & _).
  unfold sub_detach in Hv. rewrite Hv in H. simpl in H. inversion H.
  split; [reflexivity|]. exists o, (PyTensor v). split; [now exists v|reflexivity].
Qed.

Lemma init_loop_monte_carlo : forall ordering nodes ld lps ld' lps',
  Forall (fun node => monte_carlo_site (snd node)) nodes ->
  init_loop ordering nodes (ld, lps) = Ok (ld', lps') ->
  (forall o ts v, In (o, ts) lps -> In v ts -> zero_valued v) ->
  ld' = ld /\ forall o ts v, In (o, ts) lps' -> In v ts -> zero_valued v.
Proof.
  intros ordering. induction nodes as [|[name site] nodes IH];
    intros ld lps ld' lps' Hall H Hlps; cbn [init_loop] in H.
  - inversion H; subst. auto.
  - inversion Hall as [|? ? Hsite Hrest]; subst. simpl in Hsite.
    destruct (init_site ordering (ld, lps) (name, site)) as [[ld1 lps1]|e] eqn:E;
      cbn [bind] in H; [|discriminate].
    destruct (init_site_monte_carlo _ _ _ _ _ _ _ Hsite E) as (-> & o & v & Hv & ->).
    apply (IH _ _ _ _ Hrest H).
    intros o' ts v' Hin Hv'. apply in_dict_set_key in Hin.
    destruct Hin as [Hin|[-> _]]; [eapply Hlps; eauto|].
    apply in_app_iff in Hv'. destruct Hv' as [Hold|[<-|[]]]; [|exact Hv].
    unfold default_get in Hold.
    destruct (dict_get frozenset_eqb lps o) as [ts0|] eqn:Eget; [|contradiction].
    destruct (dict_get_in _ _ _ _ _ _ Eget) as (k0 & Hin0 & _). eapply Hlps; eauto.
Qed.

Lemma py_add_zero_valued : forall acc v r,
  acc = PyNum 0 \/ zero_valued acc -> zero_valued v ->
  py_add acc v = Ok r -> zero_valued r.
Proof.
  intros acc v r Hacc (t & -> & Ht) H.
  destruct Hacc as [->|(a & -> & Ha)]; cbn [py_add] in H.
  - inversion H. exists (tensor_map (dadd (dconst 0)) t). split; [reflexivity|].
    unfold all_val in *. simpl. apply Forall_map.
    eapply Forall_impl; [|exact Ht]. intros e He. unfold dadd, dconst. simpl. lra.
  - destruct (tensor_add a t) as [s|] eqn:E; cbn [bind] in H; [|discriminate].
    inversion H. exists s. split; [reflexivity|].
    exact (tensor_add_all_val_zero a t s Ha Ht E).
Qed.

Lemma py_sum_zero_valued : forall l acc r,
  Forall zero_valued l ->
  acc = PyNum 0 \/ zero_valued acc ->
  fold_left (fun acc x => a <- acc ;; py_add a x) l (Ok acc) = Ok r ->
  r = PyNum 0 \/ zero_valued r.
Proof.
  induction l as [|v l IH]; intros acc r Hl Hacc H; simpl in H.
  - inversion H. now subst.
  - inversion Hl as [|? ? Hv Hrest]; subst.
    destruct (py_add acc v) as [acc'|e] eqn:E.
    + apply (IH acc' r Hrest); [|exact H]. right.
      eapply py_add_zero_valued; eauto.
    + exfalso. clear -H. induction l as [|x l IHl]; simpl in H; [discriminate|auto].
Qed.

(** X20.  An engine built from Monte-Carlo sampled sites only, with
    well-formed tensors as log-probabilities, has no denominators, all
    its factors are tensors of forward value 0, and whenever
    [get_dice_prob] returns, it returns a tensor all of whose elements
    have the forward value 1. *)
Theorem monte_carlo_engine_has_unit_weight :
  forall (guide_trace : list (string * Site)) (ordering : list (string * frozenset))
         (d : Dice),
  Forall (fun node => monte_carlo_site (snd node)) guide_trace ->
  Dice_init guide_trace ordering = Ok d ->
  log_denom d = []
  /\ (forall target v, In v (fst (get_log_factors d target)) -> zero_valued v)
  /\ forall shape ordinal p,
       fst (get_dice_prob d shape ordinal) = Ok p ->
       exists t, p = PyTensor t /\ all_val 1 t.
Proof.
  intros trace ordering d Hall Hinit. unfold Dice_init in Hinit.
  destruct (init_loop ordering trace ([], [])) as [[ld lps]|] eqn:E; [|discriminate].
  simpl in Hinit. inversion Hinit; subst d. clear Hinit.
  destruct (init_loop_monte_carlo _ _ _ _ _ _ Hall E) as [-> Hterms];
    [intros ? ? ? []|].
  assert (Hfactors : forall target,
            Forall zero_valued (log_factors_spec [] lps target)).
  { intros target. unfold log_factors_spec, log_denom_total.
    cbn -[is_identically_zero]. rewrite is_identically_zero_0. simpl.
    apply Forall_forall. intros v Hv.
    destruct (in_concat_filter _ _ _ Hv) as (o & ts & Hin & Hvts & _).
    eapply Hterms; eauto. }
  split; [reflexivity|]. split.
  - intros target v Hv. rewrite get_log_factors_fresh in Hv.
    specialize (Hfactors target). rewrite Forall_forall in Hfactors. now apply Hfactors.
  - intros shape ordinal p Hp.
    rewrite get_dice_prob_value in Hp by apply cache_ok_fresh. simpl in Hp.
    destruct (py_sum (log_factors_spec [] lps ordinal)) as [s|] eqn:Es;
      simpl in Hp; [|discriminate].
    destruct (py_sum_zero_valued _ _ _ (Hfactors ordinal) (or_introl eq_refl) Es)
      as [->|(t & -> & Ht)]; simpl in Hp; [discriminate|].
    inversion Hp. eexists. split; [reflexivity|].
    unfold all_val in *. simpl. apply Forall_map.
    eapply Forall_impl; [|exact Ht]. intros e He. unfold dexp. simpl.
    rewrite He. apply exp_0.
Qed.

Lemma monte_carlo_engine_has_unit_weight_witness :
  exists d,
    Dice_init [("x"%string, sampled_site (zeros []));
               ("y"%string, sampled_site (zeros [4]))]
              [("x"%string, []); ("y"%string, [frame_F])] = Ok d
    /\ log_denom d = []
    /\ (forall target v, In v (fst (get_log_factors d target)) -> zero_valued v)
    /\ forall shape ordinal p,
         fst (get_dice_prob d shape ordinal) = Ok p ->
         exists t, p = PyTensor t /\ all_val 1 t.
Proof.
  eexists. split; [eval_tensors; reflexivity|].
  apply (monte_carlo_engine_has_unit_weight
           [("x"%string, sampled_site (zeros [])); ("y"%string, sampled_site (zeros [4]))]
           [("x"%string, []); ("y"%string, [frame_F])]).
  - repeat constructor; eexists; split; reflexivity.
  - eval_tensors. reflexivity.
Defined.

(** * get_iarange_stacks *)

Lemma string_eqb_trans : forall a b c : string,
  String.eqb a b = true -> String.eqb b c = true -> String.eqb a c = true.
Proof. intros a b c H1 H2. apply String.eqb_eq in H1, H2. subst. apply String.eqb_refl. Qed.

Lemma get_iarange_stacks_fold_in : forall nodes acc name stack,
  In (name, stack)
     (fold_left (fun acc (it : string * Node) =>
                   let (name, node) := it in
                   if String.eqb (node_type node) "sample"
                      && negb (site_is_subsample node)
                   then dict_set String.eqb acc name
                                 (filter Frame.vectorized (cond_indep_stack node))
                   else acc) nodes acc) ->
  In (name, stack) acc
  \/ exists node,
       In (name, node) nodes
       /\ has_iarange_stack node = true
       /\ stack = filter Frame.vectorized (cond_indep_stack node).
Proof.
  induction nodes as [|[n0 node0] nodes IH]; intros acc name stack H; simpl in H;
    [now left|].
  apply IH in H. destruct H as [H|(node & Hin & Hq & Hs)].
  - fold (has_iarange_stack node0) in H.
    destruct (has_iarange_stack node0) eqn:E; [|now left].
    apply in_dict_set_key in H. destruct H as [H|[-> Hk]]; [now left|].
    right. exists node0. split; [|auto].
    left. destruct Hk as [->|Hk]; [reflexivity|].
    apply String.eqb_eq in Hk. now subst.
  - right. exists node. split; [now right|auto].
Qed.

(** X21.  Every entry of [get_iarange_stacks] belongs to a sample site
    of the trace that is no subsample site, and is the cond_indep_stack
    of that site restricted to its vectorized frames, in their order. *)
Theorem get_iarange_stacks_entries :
  forall (nodes : list (string * Node)) (name : string) (stack : list Frame.t),
  In (name, stack) (get_iarange_stacks nodes) ->
  Forall (fun f => Frame.vectorized f = true) stack
  /\ exists node,
       In (name, node) nodes
       /\ node_type node = "sample"%string
       /\ site_is_subsample node = false
       /\ stack = filter Frame.vectorized (cond_indep_stack node).
Proof.
  intros nodes name stack H. unfold get_iarange_stacks in H.
  apply get_iarange_stacks_fold_in in H.
  destruct H as [[]|(node & Hin & Hq & ->)]. split.
  - apply Forall_forall. intros f Hf. apply filter_In in Hf. apply Hf.
  - exists node. unfold has_iarange_stack in Hq. apply andb_prop in Hq.
    destruct Hq as [H1 H2]. apply String.eqb_eq in H1. apply negb_true_iff in H2. auto.
Qed.

Lemma dict_get_not_in : forall (V : Type) (d : list (string * V)) name,
  ~ In name (map fst d) -> dict_get String.eqb d name = None.
Proof.
  intros V d name. induction d as [|[k v] d IH]; intros H; simpl; [reflexivity|].
  destruct (String.eqb_spec k name) as [->|_]; [exfalso; apply H; now left|].
  apply IH. intros Hin. apply H. now right.
Qed.

Lemma get_iarange_stacks_fold_get : forall nodes acc name,
  NoDup (map fst nodes) ->
  dict_get String.eqb
    (fold_left (fun acc (it : string * Node) =>
                  let (name, node) := it in
                  if String.eqb (node_type node) "sample"
                     && negb (site_is_subsample node)
                  then dict_set String.eqb acc name
                                (filter Frame.vectorized (cond_indep_stack node))
                  else acc) nodes acc) name
  = match dict_get String.eqb nodes name with
    | Some node =>
        if has_iarange_stack node
        then Some (filter Frame.vectorized (cond_indep_stack node))
        else dict_get String.eqb acc name
    | None => dict_get String.eqb acc name
    end.
Proof.
  induction nodes as [|[n0 node0] nodes IH]; intros acc name Hnodup; simpl;
    [reflexivity|].
  inversion Hnodup as [|? ? Hnotin Hrest]; subst.
  rewrite (IH _ name Hrest). fold (has_iarange_stack node0).
  destruct (String.eqb_spec n0 name) as [->|Hne].
  - rewrite (dict_get_not_in _ nodes name Hnotin).
    destruct (has_iarange_stack node0); [|reflexivity].
    apply dict_get_set_same;
      [apply String.eqb_sym|apply string_eqb_trans|apply String.eqb_refl].
  - assert (Hother : forall v, dict_get String.eqb (dict_set String.eqb acc n0 v) name
                               = dict_get String.eqb acc name).
    { intros v. apply dict_get_set_other;
        [apply String.eqb_sym|apply string_eqb_trans|now apply String.eqb_neq]. }
    destruct (has_iarange_stack node0); rewrite ?Hother; reflexivity.
Qed.

(** X22.  For a trace with distinct site names, [get_iarange_stacks]
    holds for a name the vectorized frames of the stack of its site if
    that is a sample site and no subsample site, and nothing
    otherwise. *)
Theorem get_iarange_stacks_lookup :
  forall (nodes : list (string * Node)) (name : string),
  NoDup (map fst nodes) ->
  dict_get String.eqb (get_iarange_stacks nodes) name
  = match dict_get String.eqb nodes name with
    | Some node =>
        if has_iarange_stack node
        then Some (filter Frame.vectorized (cond_indep_stack node))
        else None
    | None => None
    end.
Proof.
  intros nodes name Hnodup. unfold get_iarange_stacks.
  now rewrite get_iarange_stacks_fold_get.
Qed.

Lemma sequential_engine_reachable :
  reachable (mkDice [([frame_F], (0 + ln 3)%R)]
                    [([frame_F], [PyTensor (zeros [4])])] [] []).
Proof.
  apply (reach_init [("z"%string, sequential_site (zeros [4]) 3)]
                    [("z"%string, [frame_F])]).
  unfold Dice_init, init_loop.
  rewrite (init_site_sequential _ [] [] "z" (zeros [4]) [frame_F] 3)
    by (reflexivity || lia).
  reflexivity.
Defined.

Lemma log_denom_term_is_negative_witness :
  (0 <= log_denom_total [([frame_F], (0 + ln 3)%R)] [])%R
  /\ (log_denom_total [([frame_F], (0 + ln 3)%R)] [] <> 0%R ->
      (- log_denom_total [([frame_F], (0 + ln 3)%R)] [] < 0)%R
      /\ exists rest,
           fst (get_log_factors
                  (mkDice [([frame_F], (0 + ln 3)%R)]
                          [([frame_F], [PyTensor (zeros [4])])] [] []) [])
           = PyNum (- log_denom_total [([frame_F], (0 + ln 3)%R)] [])%R :: rest).
Proof.
  apply (log_denom_term_is_negative
           (mkDice [([frame_F], (0 + ln 3)%R)] [([frame_F], [PyTensor (zeros [4])])] [] [])
           []).
  exact sequential_engine_reachable.
Defined.

Lemma recorded_ordinals_have_terms_witness :
  (forall o ts, In (o, ts) [([frame_F], [PyTensor (zeros [4])])] -> ts <> [])
  /\ (forall o r, In (o, r) [([frame_F], (0 + ln 3)%R)] ->
                  exists ts,
                    dict_get frozenset_eqb [([frame_F], [PyTensor (zeros [4])])] o
                    = Some ts)
  /\ forall target,
       fst (get_log_factors
              (mkDice [([frame_F], (0 + ln 3)%R)]
                      [([frame_F], [PyTensor (zeros [4])])] [] []) target) = []
       <-> log_denom_total [([frame_F], (0 + ln 3)%R)] target = 0%R
           /\ forall o ts, In (o, ts) [([frame_F], [PyTensor (zeros [4])])] ->
                           subsetb o target = false.
Proof.
  apply (recorded_ordinals_have_terms
           (mkDice [([frame_F], (0 + ln 3)%R)] [([frame_F], [PyTensor (zeros [4])])] [] [])).
  exact sequential_engine_reachable.
Defined.

Lemma get_iarange_stacks_entries_witness :
  Forall (fun f => Frame.vectorized f = true) [frame_A]
  /\ exists node,
       In ("x"%string, node)
          [("x"%string, mkNode "sample" [frame_A; Frame.mk "seq" 0 false] false);
           ("s"%string, mkNode "sample" [frame_B] true);
           ("p"%string, mkNode "param" [frame_A] false)]
       /\ node_type node = "sample"%string
       /\ site_is_subsample node = false
       /\ [frame_A] = filter Frame.vectorized (cond_indep_stack node).
Proof.
  apply (get_iarange_stacks_entries
           [("x"%string, mkNode "sample" [frame_A; Frame.mk "seq" 0 false] false);
            ("s"%string, mkNode "sample" [frame_B] true);
            ("p"%string, mkNode "param" [frame_A] false)] "x" [frame_A]).
  left. reflexivity.
Defined.

Lemma get_iarange_stacks_lookup_witness :
  dict_get String.eqb
    (get_iarange_stacks
       [("x"%string, mkNode "sample" [frame_A; Frame.mk "seq" 0 false] false);
        ("s"%string, mkNode "sample" [frame_B] true);
        ("p"%string, mkNode "param" [frame_A] false)]) "s"%string
  = match dict_get String.eqb
            [("x"%string, mkNode "sample" [frame_A; Frame.mk "seq" 0 false] false);
             ("s"%string, mkNode "sample" [frame_B] true);
             ("p"%string, mkNode "param" [frame_A] false)] "s"%string with
    | Some node =>
        if has_iarange_stack node
        then Some (filter Frame.vectorized (cond_indep_stack node))
        else None
    | None => None
    end.
Proof.
  apply (get_iarange_stacks_lookup
           [("x"%string, mkNode "sample" [frame_A; Frame.mk "seq" 0 false] false);
            ("s"%string, mkNode "sample" [frame_B] true);
            ("p"%string, mkNode "param" [frame_A] false)] "s").
  repeat constructor; simpl; intuition discriminate.
Defined.

(** * torch_exp and torch_data_sum *)


